(** * shop-youtube-channel: the filter engine and the reconciler of
      [YouTubeChannelShop] (src/index.ts), embedded and verified.

    The class keeps a channel's videos in step with a local store: it lists
    the channel, keeps the videos that pass the configured filters, and
    answers with the entries to add and to delete.  The embedding follows
    the methods of the class one by one and keeps their names. *)

From Stdlib Require Import ZArith Ascii String Lia.
From stdpp Require Import base option list gmap strings.

Local Open Scope Z_scope.

(** ** JavaScript values the class handles *)

(** A property read from an API response: missing, [null], or a value.
    The two empty cases behave alike under [?.], [||] and truth tests and
    differ only when the value is printed. *)
Inductive nullable (A : Type) : Type :=
| Undefined
| Null
| Val (a : A).
Arguments Undefined {A}.
Arguments Null {A}.
Arguments Val {A} a.

Definition to_option {A} (x : nullable A) : option A :=
  match x with Val a => Some a | _ => None end.

(** What a template literal prints for a string-valued property. *)
Definition template (x : nullable string) : string :=
  match x with
  | Undefined => "undefined"
  | Null => "null"
  | Val s => s
  end.

(** Numbers.  Every number the class computes is an integer or [NaN];
    the integers are exact as long as they stay within the safe range
    (below 2^53 in magnitude), which is the range this model covers. *)
Inductive number : Type :=
| NaN
| Num (z : Z).

Module Number.
Definition mul (a b : number) : number :=
  match a, b with Num x, Num y => Num (x * y) | _, _ => NaN end.
Definition add (a b : number) : number :=
  match a, b with Num x, Num y => Num (x + y) | _, _ => NaN end.
Definition sub (a b : number) : number :=
  match a, b with Num x, Num y => Num (x - y) | _, _ => NaN end.

(** [a < b] and [a > b]: false as soon as one side is [NaN]. *)
Definition lt (a b : number) : bool :=
  match a, b with Num x, Num y => x <? y | _, _ => false end.
Definition gt (a b : number) : bool := lt b a.

(** Truth value of a number: [0] and [NaN] are falsy. *)
Definition truthy (a : number) : bool :=
  match a with Num z => negb (z =? 0) | NaN => false end.
End Number.

(** Optional chaining [x?.f] on a property that may be missing. *)
Definition chain {A B} (x : option A) (f : A -> option B) : option B :=
  match x with
  | Some a => f a
  | None => None
  end.
Infix "?." := chain (at level 50, left associativity).

(** Truth value of a string: the empty string is falsy. *)
Definition nonempty (s : string) : bool :=
  match s with EmptyString => false | String _ _ => true end.

(** An optional string that passes a truth test. *)
Definition truthy_str (x : option string) : option string :=
  match x with
  | Some s => if nonempty s then Some s else None
  | None => None
  end.

(** Characters are code units below 256.  White space for [parseInt]: the
    codes 9 to 13, the space (32) and the no-break space (160). *)
Definition code (c : ascii) : Z := Z.of_N (N_of_ascii c).

Definition is_white (c : ascii) : bool :=
  (9 <=? code c) && (code c <=? 13) || (code c =? 32) || (code c =? 160).

(** The value of a decimal digit (codes 48 to 57). *)
Definition digit (c : ascii) : option Z :=
  if (48 <=? code c) && (code c <=? 57) then Some (code c - 48) else None.

Definition is_digit (c : ascii) : bool :=
  match digit c with Some _ => true | None => false end.

Fixpoint trim_start (s : string) : string :=
  match s with
  | String c r => if is_white c then trim_start r else s
  | EmptyString => EmptyString
  end.

(** The value of the longest prefix of decimal digits; [None] when the
    text does not start with a digit. *)
Fixpoint digits (acc : option Z) (s : string) : option Z :=
  match s with
  | String c r =>
      match digit c with
      | Some d => digits (Some (10 * default 0 acc + d)) r
      | None => acc
      end
  | EmptyString => acc
  end.

(** [parseInt(s, 10)]: leading white space is skipped, one sign is
    accepted, the digits that follow are read and the rest is ignored;
    [NaN] when no digit follows. *)
Definition parseInt (s : string) : number :=
  let t := trim_start s in
  let '(sign, body) :=
    match t with
    | String "-"%char r => (-1, r)
    | String "+"%char r => (1, r)
    | _ => (1, t)
    end in
  match digits None body with
  | Some n => Num (sign * n)
  | None => NaN
  end.

(** [s.slice(-1)] and [s.slice(0, -1)]. *)
Fixpoint slice_last (s : string) : string :=
  match s with
  | EmptyString => EmptyString
  | String c EmptyString => s
  | String _ r => slice_last r
  end.

Fixpoint slice_init (s : string) : string :=
  match s with
  | EmptyString => EmptyString
  | String _ EmptyString => EmptyString
  | String c r => String c (slice_init r)
  end.

(** [xs.join(sep)]. *)
Fixpoint join (sep : string) (xs : list string) : string :=
  match xs with
  | [] => EmptyString
  | [x] => x
  | x :: r => x +:+ sep +:+ join sep r
  end.


(** ** Errors and the results of code that may throw *)

Inductive Error : Type :=
| Err (message : string).

Definition result (A : Type) : Type := Error + A.

Global Instance result_ret : MRet result := fun A a => inr a.
Global Instance result_bind : MBind result := fun A B k m =>
  match m with
  | inl e => inl e
  | inr a => k a
  end.

Definition throw {A} (e : Error) : result A := inl e.

(** [try { body } catch (error) { handler }] for a handler that ignores
    which error it caught. *)
Definition try_catch {A} (body : result A) (handler : A) : A :=
  match body with
  | inr a => a
  | inl _ => handler
  end.

(** ** The data the class reads and writes *)

(** A video as the listing returns it ([youtube_v3.Schema$Video]), with the
    properties the class reads.  An optional property is [None] when it is
    missing or [null]. *)
Module Thumbnail.
Record t : Type := { url : option string }.
End Thumbnail.

Module Thumbnails.
Record t : Type := { high : option Thumbnail.t }.
End Thumbnails.

Module Snippet.
Record t : Type := {
  title : option string;
  publishedAt : option string;
  channelTitle : option string;
  thumbnails : option Thumbnails.t;
  (** the properties the class never reads, kept for serialisation *)
  others : string
}.
End Snippet.

Module ContentDetails.
Record t : Type := { duration : option string }.
End ContentDetails.

Module Video.
Record t : Type := {
  id : nullable string;
  snippet : nullable Snippet.t;
  contentDetails : option ContentDetails.t
}.
End Video.

(** A value of shoprag.json that the interface [Config] declares as a
    string and that the documented configurations also write as a number.
    [JNum n] stands for an integer below 2^53 in magnitude, which is printed
    as its plain decimal digits; fractions and larger numbers are not
    covered. *)
Inductive scalar : Type :=
| JStr (s : string)
| JNum (n : Z).

(** [interface Config]. *)
Module Config.
Record t : Type := {
  channelId : option string;
  mode : option string;
  noDelete : option bool;
  titleIncludes : option string;
  durationMoreThan : option scalar;
  durationLessThan : option scalar;
  dropAfter : option string;
  startDate : option string;
  includeHeader : option bool
}.
End Config.

(** [interface Filters].  A compiled [RegExp] is kept as its source text. *)
Module Filters.
Record t : Type := {
  titleIncludes : option string;
  durationMoreThan : option number;
  durationLessThan : option number;
  dropAfter : option string;
  startDate : option string
}.
End Filters.

(** The private fields of [YouTubeChannelShop] once [init] has run. *)
Module Shop.
Record t : Type := {
  channelId : string;
  mode : string;
  noDelete : bool;
  includeHeader : bool;
  filters : Filters.t
}.
End Shop.

(** The entries of the mapping [update] returns. *)
Module Action.
Inductive t : Type :=
| add
| update
| delete.
End Action.

Module Entry.
Record t : Type := {
  action : Action.t;
  (** [content?: string]: [None] when the property is missing or
      [undefined] *)
  content : option string
}.
End Entry.

(** The two object literals [update] writes: [{ action: 'add', content }]
    and [{ action: 'delete' }]. *)
Definition add_entry (content : option string) : Entry.t :=
  {| Entry.action := Action.add; Entry.content := content |}.

Definition delete_entry : Entry.t :=
  {| Entry.action := Action.delete; Entry.content := None |}.

Global Instance Action_eq_dec : EqDecision Action.t.
Proof. solve_decision. Defined.

Global Instance Entry_eq_dec : EqDecision Entry.t.
Proof. solve_decision. Defined.

(** ** What the class takes from outside

    The regular-expression engine, the date parser and printer, the clock,
    the JSON printer, the transcript service and the channel listing.  The
    clock is held still during one pass. *)
Class Host : Type := {
  (** [new RegExp(p)] does not throw *)
  RegExp_ok : string -> bool;
  (** [new RegExp(p).test(s)] *)
  RegExp_test : string -> string -> bool;
  (** the time value of [new Date(s)], [NaN] for an invalid date *)
  Date_parse : string -> number;
  (** [toISOString] of a valid date *)
  Date_toISOString : Z -> string;
  (** the time value of [moment()] *)
  now : Z;
  (** [JSON.stringify] of a snippet *)
  JSON_stringify : Snippet.t -> string;
  (** [YoutubeTranscript.fetchTranscript(videoId)]: the texts of the
      transcript, or [None] when the call rejects *)
  fetchTranscript : nullable string -> option (list string);
  (** the outcome of [getAllVideoDetails()] for a channel: the paged
      [search.list] and the batched [videos.list] calls of the YouTube
      client either throw or answer with the videos *)
  getAllVideoDetails : string -> result (list Video.t)
}.


(** ** The methods of [YouTubeChannelShop] *)

(** The match of [/PT(\d+H)?(\d+M)?(\d+S)?/].  Every group after [PT] is
    optional, so the expression matches at the leftmost [PT] of the text
    and nowhere when the text has none; a group takes part when a longest
    run of one or more digits is followed by its letter (a shorter run
    would be followed by a digit), and is skipped otherwise. *)
Fixpoint after_PT (s : string) : option string :=
  match s with
  | String "P"%char (String "T"%char r) => Some r
  | String _ r => after_PT r
  | EmptyString => None
  end.

Fixpoint span_digits (s : string) : string * string :=
  match s with
  | String c r =>
      if is_digit c
      then let '(ds, rest) := span_digits r in (String c ds, rest)
      else (EmptyString, s)
  | EmptyString => (EmptyString, EmptyString)
  end.

(** One group [(\d+X)?]: the text it captured, if it took part, and the
    text left after it. *)
Definition group (X : ascii) (s : string) : option string * string :=
  match span_digits s with
  | (String d ds, String c rest) =>
      if Ascii.eqb c X
      then (Some (String d ds +:+ String X EmptyString), rest)
      else (None, s)
  | _ => (None, s)
  end.

(** [duration.match(/PT(\d+H)?(\d+M)?(\d+S)?/)]: the three groups. *)
Definition match_duration (duration : string)
  : option (option string * option string * option string) :=
  match after_PT duration with
  | None => None
  | Some r =>
      let '(h, r1) := group "H" r in
      let '(m, r2) := group "M" r1 in
      let '(s, _) := group "S" r2 in
      Some (h, m, s)
  end.

Definition parseDuration (duration : string) : number :=
  match match_duration duration with
  | None => Num 0
  | Some (m1, m2, m3) =>
      let hours := match m1 with Some t => parseInt t | None => Num 0 end in
      let minutes := match m2 with Some t => parseInt t | None => Num 0 end in
      let seconds := match m3 with Some t => parseInt t | None => Num 0 end in
      Number.add
        (Number.add (Number.mul hours (Num 3600)) (Number.mul minutes (Num 60)))
        seconds
  end.

Definition parseDropAfter (dropAfter : string) : result number :=
  let unit := slice_last dropAfter in
  let value := parseInt (slice_init dropAfter) in
  let times (a : number) (k : Z) := Number.mul a (Num k) in
  if String.eqb unit "d" then
    mret (times (times (times (times value 24) 60) 60) 1000)
  else if String.eqb unit "w" then
    mret (times (times (times (times (times value 7) 24) 60) 60) 1000)
  else if String.eqb unit "m" then
    mret (times (times (times (times (times value 30) 24) 60) 60) 1000)
  else if String.eqb unit "y" then
    mret (times (times (times (times (times value 365) 24) 60) 60) 1000)
  else
    throw (Err ("Invalid dropAfter unit: " +:+ unit)).

(** [requiredCredentials]: the one credential, with the instructions shown
    to the user. *)
Definition requiredCredentials : gmap string string :=
  {[ "youtube_api_key" := "To obtain a YouTube API key:
1. Go to https://console.developers.google.com/
2. Create a new project or select an existing one.
3. Enable the YouTube Data API v3.
4. Create an API key and copy it here." ]}.

Section Methods.

Context `{Host}.

(** [init]: the fields it computes, or the error it throws. *)
Definition init (credentials : gmap string string) (cfg : Config.t)
  : result Shop.t :=
  match truthy_str (credentials !! "youtube_api_key") with
  | None => throw (Err "YouTube API key is required.")
  | Some _ =>
      match truthy_str (Config.channelId cfg) with
      | None => throw (Err "channelId is required in config.")
      | Some channelId =>
          let mode := default "metadata" (truthy_str (Config.mode cfg)) in
          let noDelete :=
            match Config.noDelete cfg with Some true => true | _ => false end in
          let includeHeader :=
            match Config.includeHeader cfg with Some false => false | _ => true end in
          let bound (x : option scalar) : option number :=
            match x with
            | Some (JStr s) => if nonempty s then Some (parseInt s) else None
            | Some (JNum n) => if n =? 0 then None else Some (Num n)
            | None => None
            end in
          titleIncludes ←
            match truthy_str (Config.titleIncludes cfg) with
            | Some p =>
                if RegExp_ok p then mret (Some p)
                else throw (Err "Invalid regular expression")
            | None => mret None
            end;
          mret {|
            Shop.channelId := channelId;
            Shop.mode := mode;
            Shop.noDelete := noDelete;
            Shop.includeHeader := includeHeader;
            Shop.filters := {|
              Filters.titleIncludes := titleIncludes;
              Filters.durationMoreThan := bound (Config.durationMoreThan cfg);
              Filters.durationLessThan := bound (Config.durationLessThan cfg);
              Filters.dropAfter := Config.dropAfter cfg;
              Filters.startDate := Config.startDate cfg
            |}
          |}
      end
  end.

Variable this : Shop.t.

Definition shouldDropVideo (publishedAt : number) : result bool :=
  match truthy_str (Filters.dropAfter (Shop.filters this)) with
  | None => mret false
  | Some dropAfter =>
      let age := Number.sub (Num now) publishedAt in
      dropDuration ← parseDropAfter dropAfter;
      mret (Number.gt age dropDuration)
  end.

(** The callback of [videos.filter] in [applyFilters]: the verdict on one
    video, or the error thrown while it is computed. *)
Definition keeps (video : Video.t) : result bool :=
  let filters := Shop.filters this in
  let snippet := to_option (Video.snippet video) in
  let title := snippet ?. Snippet.title in
  let publishedAt :=
    Date_parse <$> truthy_str (snippet ?. Snippet.publishedAt) in
  let duration :=
    match truthy_str (Video.contentDetails video ?. ContentDetails.duration) with
    | Some d => parseDuration d
    | None => Num 0
    end in
  let title_fails :=
    match Filters.titleIncludes filters, truthy_str title with
    | Some p, Some t => negb (RegExp_test p t)
    | _, _ => false
    end in
  let startDate_fails :=
    match truthy_str (Filters.startDate filters), publishedAt with
    | Some s, Some p => Number.lt p (Date_parse s)
    | _, _ => false
    end in
  let durationMoreThan_fails :=
    match Filters.durationMoreThan filters with
    | Some m => Number.truthy m && Number.lt duration m
    | None => false
    end in
  let durationLessThan_fails :=
    match Filters.durationLessThan filters with
    | Some m => Number.truthy m && Number.gt duration m
    | None => false
    end in
  if title_fails then mret false
  else if startDate_fails then mret false
  else if durationMoreThan_fails then mret false
  else if durationLessThan_fails then mret false
  else
    match truthy_str (Filters.dropAfter filters), publishedAt with
    | Some _, Some p =>
        drop ← shouldDropVideo p;
        mret (negb drop)
    | _, _ => mret true
    end.

(** [videos.filter(callback)]: the videos are visited in order and the
    first error ends the visit. *)
Fixpoint applyFilters (videos : list Video.t) : result (list Video.t) :=
  match videos with
  | [] => mret ([] : list Video.t)
  | video :: rest =>
      keep ← keeps video;
      kept ← applyFilters rest;
      mret (if keep : bool then video :: kept else kept)
  end.

Definition getMetadataContent (video : Video.t) : option string :=
  match Video.snippet video with
  | Undefined => None
  | Null => Some "null"
  | Val snippet => Some (JSON_stringify snippet)
  end.

Definition getThumbnailContent (video : Video.t) : string :=
  default ""
    (truthy_str
       (to_option (Video.snippet video) ?. Snippet.thumbnails
          ?. Thumbnails.high ?. Thumbnail.url)).

(** Whatever is thrown inside the [try] block, by the transcript service or
    by [toISOString] on an invalid date, ends in the fallback text. *)
Definition getTranscriptContent (video : Video.t) : string :=
  let videoId := Video.id video in
  let body : result string :=
    match fetchTranscript videoId with
    | None => throw (Err "transcript")
    | Some transcript =>
        let transcriptText := join " " transcript in
        if Shop.includeHeader this then
          let snippet := to_option (Video.snippet video) in
          let title :=
            default "Unknown Title" (truthy_str (snippet ?. Snippet.title)) in
          let channelName :=
            default "Unknown Channel"
              (truthy_str (snippet ?. Snippet.channelTitle)) in
          let videoUrl := "https://www.youtube.com/watch?v=" +:+ template videoId in
          dateUploaded ←
            match truthy_str (snippet ?. Snippet.publishedAt) with
            | Some p =>
                match Date_parse p with
                | Num t => mret (Date_toISOString t)
                | NaN => throw (Err "Invalid time value")
                end
            | None => mret "Unknown Date"
            end;
          mret ("YouTube video: " +:+ title +:+ "
Video URL: " +:+ videoUrl +:+ "
Uploaded by: " +:+ channelName +:+ "
Date: " +:+ dateUploaded +:+ "
Video transcript follows:
" +:+ transcriptText +:+ "
[end of video]")
        else mret transcriptText
    end in
  try_catch body "Transcript not available".

Definition getVideoContent (videoId : nullable string) : string :=
  "https://www.youtube.com/watch?v=" +:+ template videoId.

Definition getAudioContent (videoId : nullable string) : string :=
  "Audio extraction not yet implemented".

(** The identifier [update] gives a video:
    [`youtube-channel-${this.channelId}-${video.id}-${this.mode}`]. *)
Definition fileId (video : Video.t) : string :=
  "youtube-channel-" +:+ Shop.channelId this +:+ "-"
    +:+ template (Video.id video) +:+ "-" +:+ Shop.mode this.

(** The [switch (this.mode)] of [update]. *)
Definition fetchContent (video : Video.t) : result (option string) :=
  let mode := Shop.mode this in
  if String.eqb mode "metadata" then mret (getMetadataContent video)
  else if String.eqb mode "thumbnail" then mret (Some (getThumbnailContent video))
  else if String.eqb mode "transcript" then mret (Some (getTranscriptContent video))
  else if String.eqb mode "video" then mret (Some (getVideoContent (Video.id video)))
  else if String.eqb mode "audio" then mret (Some (getAudioContent (Video.id video)))
  else throw (Err ("Invalid mode: " +:+ mode)).

(** The first loop of [update]: the identifiers of the filtered videos and
    the videos whose identifier is not a key of [existingFiles].  An
    identifier starts with [youtube-channel-], so [in] finds it among the
    own keys of [existingFiles] or not at all. *)
Fixpoint scan (existingFiles : gmap string Z) (filteredVideos : list Video.t)
    (currentFileIds : gset string) (newVideos : list Video.t)
  : gset string * list Video.t :=
  match filteredVideos with
  | [] => (currentFileIds, newVideos)
  | video :: rest =>
      let fileId := fileId video in
      scan existingFiles rest ({[ fileId ]} ∪ currentFileIds)
        (if decide (fileId ∈ dom existingFiles) then newVideos
         else newVideos ++ [video])
  end.

(** The second loop: one [add] entry for each new video, in order; a later
    entry for the same identifier replaces an earlier one. *)
Fixpoint addAll (newVideos : list Video.t) (updates : gmap string Entry.t)
  : result (gmap string Entry.t) :=
  match newVideos with
  | [] => mret updates
  | video :: rest =>
      content ← fetchContent video;
      addAll rest
        (<[ fileId video := add_entry content ]> updates)
  end.

(** The third loop, over the keys of [existingFiles]. *)
Fixpoint deleteAll (keys : list string) (currentFileIds : gset string)
    (updates : gmap string Entry.t) : gmap string Entry.t :=
  match keys with
  | [] => updates
  | fileId :: rest =>
      deleteAll rest currentFileIds
        (if decide (fileId ∈ currentFileIds) then updates
         else <[ fileId := delete_entry ]> updates)
  end.

(** The body of [update] from the filtered videos on. *)
Definition reconcile (filteredVideos : list Video.t)
    (existingFiles : gmap string Z) : result (gmap string Entry.t) :=
  let '(currentFileIds, newVideos) := scan existingFiles filteredVideos ∅ [] in
  updates ← addAll newVideos ∅;
  mret (if Shop.noDelete this then updates
        else deleteAll (map_to_list existingFiles).*1 currentFileIds updates).

(** The [try] block of [update]. *)
Definition update_try (existingFiles : gmap string Z)
  : result (gmap string Entry.t) :=
  videos ← getAllVideoDetails (Shop.channelId this);
  filteredVideos ← applyFilters videos;
  reconcile filteredVideos existingFiles.

(** [update]: the [try] block, and the empty mapping of the [catch] block.
    What is written to the console and to the progress bars is left out. *)
Definition update (lastUsed : Z) (existingFiles : gmap string Z)
  : gmap string Entry.t :=
  try_catch (update_try existingFiles) ∅.

End Methods.

(** * The vocabulary of the properties *)

(** A text without [PT] does not match. *)
Fixpoint has_PT (s : string) : bool :=
  match s with
  | String "P"%char (String "T"%char _) => true
  | String _ r => has_PT r
  | EmptyString => false
  end.

(** The length of a unit of the expiry window in milliseconds: a day, a
    week of 7 days, a month of 30 days and a year of 365 days. *)
Definition unit_ms (unit : string) : option Z :=
  if String.eqb unit "d" then Some 86400000
  else if String.eqb unit "w" then Some (7 * 86400000)
  else if String.eqb unit "m" then Some (30 * 86400000)
  else if String.eqb unit "y" then Some (365 * 86400000)
  else None.

(** The five content modes. *)
Definition valid_mode (mode : string) : Prop :=
  mode ∈ ["metadata"; "thumbnail"; "transcript"; "video"; "audio"].

(** A shop with other filters, and filters with one setting changed. *)
Definition with_filters (filters : Filters.t) (this : Shop.t) : Shop.t :=
  {| Shop.channelId := Shop.channelId this;
     Shop.mode := Shop.mode this;
     Shop.noDelete := Shop.noDelete this;
     Shop.includeHeader := Shop.includeHeader this;
     Shop.filters := filters |}.

Definition set_titleIncludes (p : option string) (f : Filters.t) : Filters.t :=
  {| Filters.titleIncludes := p;
     Filters.durationMoreThan := Filters.durationMoreThan f;
     Filters.durationLessThan := Filters.durationLessThan f;
     Filters.dropAfter := Filters.dropAfter f;
     Filters.startDate := Filters.startDate f |}.

Definition set_durationMoreThan (m : option number) (f : Filters.t) : Filters.t :=
  {| Filters.titleIncludes := Filters.titleIncludes f;
     Filters.durationMoreThan := m;
     Filters.durationLessThan := Filters.durationLessThan f;
     Filters.dropAfter := Filters.dropAfter f;
     Filters.startDate := Filters.startDate f |}.

Definition set_durationLessThan (m : option number) (f : Filters.t) : Filters.t :=
  {| Filters.titleIncludes := Filters.titleIncludes f;
     Filters.durationMoreThan := Filters.durationMoreThan f;
     Filters.durationLessThan := m;
     Filters.dropAfter := Filters.dropAfter f;
     Filters.startDate := Filters.startDate f |}.

(** The title of a video as the filter reads it. *)
Definition title_of (video : Video.t) : option string :=
  truthy_str (to_option (Video.snippet video) ?. Snippet.title).

(** A text with the separator of the identifiers in it. *)
Fixpoint has_hyphen (s : string) : bool :=
  match s with
  | String c r => Ascii.eqb c "-" || has_hyphen r
  | EmptyString => false
  end.

(** The three parts [update] writes into an identifier. *)
Definition parts (this : Shop.t) (video : Video.t) : string * string * string :=
  (Shop.channelId this, template (Video.id video), Shop.mode this).

(** What the store does with a change set: an identifier that is added
    (or updated) is recorded with the marker of the run, an identifier that
    is deleted is dropped, every other identifier stays as it is. *)
Definition applyChanges (changes : gmap string Entry.t)
    (priorState : gmap string Z) (marker : Z) : gmap string Z :=
  merge
    (fun change old =>
       match change with
       | Some entry =>
           match Entry.action entry with
           | Action.delete => None
           | _ => Some marker
           end
       | None => old
       end)
    changes priorState.

Definition set_dropAfter (d : option string) (f : Filters.t) : Filters.t :=
  {| Filters.titleIncludes := Filters.titleIncludes f;
     Filters.durationMoreThan := Filters.durationMoreThan f;
     Filters.durationLessThan := Filters.durationLessThan f;
     Filters.dropAfter := d;
     Filters.startDate := Filters.startDate f |}.

(** The publish date of a video as the filter reads it. *)
Definition publishedAt_of (video : Video.t) : option string :=
  truthy_str (to_option (Video.snippet video) ?. Snippet.publishedAt).

(** The change set of a pass whose listing and filters gave these videos. *)
Definition reconcile_pass `{Host} (this : Shop.t) (filteredVideos : list Video.t)
    (priorState : gmap string Z) : gmap string Entry.t :=
  try_catch (reconcile this filteredVideos priorState) ∅.

(** ** A host to run the class on

    Patterns without special characters, for which [test] is a search for
    the pattern in the text; a table of two dates; a clock that shows
    2025-01-01T00:00:00Z; a transcript service that is down; and a listing
    that is given. *)
Fixpoint includes (p s : string) : bool :=
  String.prefix p s
  || match s with
     | String _ r => includes p r
     | EmptyString => false
     end.

Definition table_Date_parse (s : string) : number :=
  if String.eqb s "2023-01-01" then Num 1672531200000
  else if String.eqb s "2024-01-01T00:00:00Z" then Num 1704067200000
  else NaN.

Definition table_host (listing : result (list Video.t)) : Host :=
  {| RegExp_ok := fun _ => true;
     RegExp_test := includes;
     Date_parse := table_Date_parse;
     Date_toISOString := fun _ => "2024-01-01T00:00:00.000Z";
     now := 1735689600000;
     JSON_stringify := Snippet.others;
     fetchTranscript := fun _ => None;
     getAllVideoDetails := fun _ => listing |}.

Definition no_filters : Filters.t :=
  {| Filters.titleIncludes := None;
     Filters.durationMoreThan := None;
     Filters.durationLessThan := None;
     Filters.dropAfter := None;
     Filters.startDate := None |}.

Definition a_shop (mode : string) (noDelete : bool) (filters : Filters.t) : Shop.t :=
  {| Shop.channelId := "UC123";
     Shop.mode := mode;
     Shop.noDelete := noDelete;
     Shop.includeHeader := true;
     Shop.filters := filters |}.

Definition a_video (id : string) (title publishedAt duration : option string)
  : Video.t :=
  {| Video.id := Val id;
     Video.snippet :=
       Val {| Snippet.title := title;
              Snippet.publishedAt := publishedAt;
              Snippet.channelTitle := None;
              Snippet.thumbnails := None;
              Snippet.others := "" |};
     Video.contentDetails := Some {| ContentDetails.duration := duration |} |}.

(** Two videos and a prior state that holds the first of them in the mode
    video. *)
Definition video1 : Video.t := a_video "v1" (Some "First") None (Some "PT5M").
Definition video2 : Video.t :=
  a_video "v2" (Some "Second") (Some "2024-01-01T00:00:00Z") (Some "PT1H2M3S").

Definition prior1 : gmap string Z := {[ "youtube-channel-UC123-v1-video" := 5 ]}.

(** A configuration with an expiry window in an unknown unit. *)
Definition config_5x : Config.t :=
  {| Config.channelId := Some "UC123";
     Config.mode := Some "video";
     Config.noDelete := None;
     Config.titleIncludes := None;
     Config.durationMoreThan := None;
     Config.durationLessThan := None;
     Config.dropAfter := Some "5x";
     Config.startDate := None;
     Config.includeHeader := None |}.

Definition credentials1 : gmap string string := {[ "youtube_api_key" := "key" ]}.

(** ** Texts made of decimal digits

    A number written out digit by digit, the most significant digit first,
    and the value it stands for. *)
Definition digit_char (d : Z) : ascii := ascii_of_N (Z.to_N (48 + d)).

Fixpoint digit_string (ds : list Z) : string :=
  match ds with
  | [] => EmptyString
  | d :: rest => String (digit_char d) (digit_string rest)
  end.

Definition value_from (acc : Z) (ds : list Z) : Z :=
  foldl (fun a d => 10 * a + d) acc ds.

Definition value (ds : list Z) : Z := value_from 0 ds.

Definition decimal (ds : list Z) : Prop :=
  ds <> [] /\ Forall (fun d => 0 <= d <= 9) ds.

(** A component of a duration: the digits and the letter, or nothing when
    there are no digits. *)
Definition component (ds : list Z) (X : ascii) : string :=
  match ds with
  | [] => EmptyString
  | _ => digit_string ds +:+ String X EmptyString
  end.

(** The first character of a text is a digit. *)
Definition starts_with_digit (s : string) : bool :=
  match s with
  | String c _ => is_digit c
  | EmptyString => false
  end.

(** A text with the letter P in it. *)
Fixpoint has_P (s : string) : bool :=
  match s with
  | String c r => Ascii.eqb c "P" || has_P r
  | EmptyString => false
  end.

(** The duration of a video as the filter reads it. *)
Definition duration_of (video : Video.t) : number :=
  match truthy_str (Video.contentDetails video ?. ContentDetails.duration) with
  | Some d => parseDuration d
  | None => Num 0
  end.

Global Instance Error_eq_dec : EqDecision Error.
Proof. solve_decision. Defined.

Definition set_startDate (d : option string) (f : Filters.t) : Filters.t :=
  {| Filters.titleIncludes := Filters.titleIncludes f;
     Filters.durationMoreThan := Filters.durationMoreThan f;
     Filters.durationLessThan := Filters.durationLessThan f;
     Filters.dropAfter := Filters.dropAfter f;
     Filters.startDate := d |}.

(** A shop with another no-delete flag. *)
Definition with_noDelete (noDelete : bool) (this : Shop.t) : Shop.t :=
  {| Shop.channelId := Shop.channelId this;
     Shop.mode := Shop.mode this;
     Shop.noDelete := noDelete;
     Shop.includeHeader := Shop.includeHeader this;
     Shop.filters := Shop.filters this |}.

(** The videos the filters keep. *)
Definition kept `{Host} (this : Shop.t) (videos : list Video.t) : list Video.t :=
  filter (fun video => keeps this video = inr true) videos.

(** The expiry window is missing, empty, or ends in one of the four
    units. *)
Definition dropAfter_ok (this : Shop.t) : Prop :=
  match truthy_str (Filters.dropAfter (Shop.filters this)) with
  | Some dropAfter => is_Some (unit_ms (slice_last dropAfter))
  | None => True
  end.

(** ** The listing of a channel

    [getChannelVideoIds] and [getAllVideoDetails] as the class has them,
    over the two calls of the YouTube client they make.  A response is the
    [data] of the answer; [items] is [None] when it is missing. *)
Module ResourceId.
Record t : Type := { videoId : nullable string }.
End ResourceId.

Module SearchResult.
Record t : Type := { id : option ResourceId.t }.
End SearchResult.

Module SearchListResponse.
Record t : Type := {
  items : option (list SearchResult.t);
  nextPageToken : option string
}.
End SearchListResponse.

Module VideoListResponse.
Record t : Type := { items : option (list Video.t) }.
End VideoListResponse.

Class Youtube : Type := {
  (** [youtube.search.list] for a channel id and a page token, with the
      fixed part, page size and type *)
  search_list : string -> option string -> result SearchListResponse.t;
  (** [youtube.videos.list] for the ids of a batch, joined by commas *)
  videos_list : string -> result VideoListResponse.t
}.

Global Instance nullable_eq_dec {A} `{EqDecision A} : EqDecision (nullable A).
Proof. solve_decision. Defined.

(** [item.id?.videoId]. *)
Definition videoId_of (item : SearchResult.t) : nullable string :=
  match SearchResult.id item with
  | Some id => ResourceId.videoId id
  | None => Undefined
  end.

(** The ids of a page that pass [id !== undefined]. *)
Definition ids_of (items : list SearchResult.t) : list (nullable string) :=
  filter (fun id => id <> Undefined) (videoId_of <$> items).

(** [batch.join(',')]: a missing id is written as the empty text. *)
Definition join_ids (batch : list (nullable string)) : string :=
  join "," ((fun id => match id with Val s => s | _ => EmptyString end) <$> batch).

Module Client.

Section Listing.

Context `{Youtube}.
Variable this : Shop.t.

(** The do-while loop of [getChannelVideoIds]; a round of the loop takes
    one unit of fuel, and [None] says that the fuel ran out before a page
    came without a token. *)
Fixpoint getChannelVideoIds_loop (fuel : nat) (videoIds : list (nullable string))
    (nextPageToken : option string) : option (result (list (nullable string))) :=
  match fuel with
  | O => None
  | S fuel =>
      match search_list (Shop.channelId this) nextPageToken with
      | inl e => Some (inl e)
      | inr response =>
          match SearchListResponse.items response with
          | None => Some (inl (Err "TypeError"))
          | Some items =>
              let videoIds := videoIds ++ ids_of items in
              match truthy_str (SearchListResponse.nextPageToken response) with
              | Some token => getChannelVideoIds_loop fuel videoIds (Some token)
              | None => Some (inr videoIds)
              end
          end
      end
  end.

Definition getChannelVideoIds (fuel : nat)
  : option (result (list (nullable string))) :=
  getChannelVideoIds_loop fuel [] None.

(** The for loop of [getAllVideoDetails], from the index [i] on.  The index
    grows by 50 in every round and the loop ends when it reaches the number
    of ids, so as many rounds as there are ids are always enough: the fuel
    only makes the recursion structural. *)
Fixpoint getAllVideoDetails_loop (fuel i : nat) (videoIds : list (nullable string))
    (details : list Video.t) : result (list Video.t) :=
  match fuel with
  | O => mret details
  | S fuel =>
      if (i <? length videoIds)%nat then
        let batch := take 50 (drop i videoIds) in
        response ← videos_list (join_ids batch);
        match VideoListResponse.items response with
        | None => throw (Err "TypeError")
        | Some items =>
            getAllVideoDetails_loop fuel (i + 50) videoIds (details ++ items)
        end
      else mret details
  end.

Definition getAllVideoDetails (fuel : nat) : option (result (list Video.t)) :=
  match getChannelVideoIds fuel with
  | None => None
  | Some (inl e) => Some (inl e)
  | Some (inr videoIds) =>
      Some (getAllVideoDetails_loop (length videoIds) 0 videoIds [])
  end.

(** The pages of a channel from a token on: every page but the last names
    the next one. *)
Fixpoint paged (token : option string) (pages : list (list SearchResult.t)) : Prop :=
  match pages with
  | [] => False
  | items :: rest =>
      exists next,
        search_list (Shop.channelId this) token
        = inr {| SearchListResponse.items := Some items;
                 SearchListResponse.nextPageToken := next |}
        /\ match rest with
           | [] => truthy_str next = None
           | _ => exists token', truthy_str next = Some token'
                                 /\ paged (Some token') rest
           end
  end.

End Listing.

End Client.

(** ** Hosts and clients to run the listing on *)

Definition transcript_host : Host :=
  {| RegExp_ok := fun _ => true;
     RegExp_test := includes;
     Date_parse := table_Date_parse;
     Date_toISOString := fun _ => "2024-01-01T00:00:00.000Z";
     now := 1735689600000;
     JSON_stringify := Snippet.others;
     fetchTranscript := fun _ => Some ["never"; "gonna"];
     getAllVideoDetails := fun _ => inr [] |}.

Definition video3 : Video.t :=
  a_video "v3" (Some "Third") (Some "last Tuesday") (Some "PT4M").

Definition item (videoId : nullable string) : SearchResult.t :=
  {| SearchResult.id := Some {| ResourceId.videoId := videoId |} |}.

(** A channel of two pages, and the details of its three videos. *)
Definition two_pages : Youtube :=
  {| search_list := fun _ token =>
       match token with
       | None =>
           inr {| SearchListResponse.items := Some [item (Val "v1"); item Undefined];
                  SearchListResponse.nextPageToken := Some "page2" |}
       | Some _ =>
           inr {| SearchListResponse.items := Some [item (Val "v2"); item Null];
                  SearchListResponse.nextPageToken := None |}
       end;
     videos_list := fun ids =>
       if String.eqb ids "v1,v2," then
         inr {| VideoListResponse.items := Some [video1; video2] |}
       else inl (Err "notFound") |}.

(** A channel whose every page names a next page. *)
Definition endless : Youtube :=
  {| search_list := fun _ _ =>
       inr {| SearchListResponse.items := Some [item (Val "v1")];
              SearchListResponse.nextPageToken := Some "again" |};
     videos_list := fun _ => inl (Err "notFound") |}.

(** A channel whose second page cannot be fetched. *)
Definition second_page_fails : Youtube :=
  {| search_list := fun _ token =>
       match token with
       | None =>
           inr {| SearchListResponse.items := Some [item (Val "v1")];
                  SearchListResponse.nextPageToken := Some "page2" |}
       | Some _ => inl (Err "quotaExceeded")
       end;
     videos_list := fun _ => inl (Err "notFound") |}.

(** * Properties *)

(** ** The duration parser *)

Lemma digits_Some (s : string) (a : Z) : is_Some (digits (Some a) s).
Proof.
  revert a. induction s as [|c r IH]; intros a; simpl; [by eexists|].
  destruct (digit c); [apply IH | by eexists].
Qed.

Lemma digit_nonneg (c : ascii) (d : Z) : digit c = Some d -> 0 <= d.
Proof.
  unfold digit. destruct (48 <=? code c) eqn:Hlow; [|done].
  destruct (code c <=? 57); [|done]. intros [= <-].
  apply Z.leb_le in Hlow. lia.
Qed.

Lemma digits_nonneg (s : string) (acc : option Z) (n : Z) :
  0 <= default 0 acc -> digits acc s = Some n -> 0 <= n.
Proof.
  revert acc. induction s as [|c r IH]; intros acc Hacc; simpl.
  - intros ->. done.
  - destruct (digit c) as [d|] eqn:Hd; [|intros ->; done].
    apply IH. simpl.
    pose proof (digit_nonneg c d Hd). lia.
Qed.

Lemma is_digit_not_white (c : ascii) : is_digit c = true -> is_white c = false.
Proof. by destruct c as [[] [] [] [] [] [] [] []]. Qed.

Lemma is_digit_not_sign (c : ascii) :
  is_digit c = true -> c <> "-"%char /\ c <> "+"%char.
Proof. by destruct c as [[] [] [] [] [] [] [] []]. Qed.

(** A text that starts with a digit parses to a number that is not
    negative. *)
Lemma parseInt_digit (c : ascii) (s : string) :
  is_digit c = true -> exists n, parseInt (String c s) = Num n /\ 0 <= n.
Proof.
  intros Hc. unfold parseInt. simpl.
  rewrite (is_digit_not_white c Hc).
  destruct (is_digit_not_sign c Hc) as [Hm Hp].
  assert (Hbody : (let '(sign, body) :=
                     match String c s with
                     | String "-"%char r => (-1, r)
                     | String "+"%char r => (1, r)
                     | _ => (1, String c s)
                     end in
                   match digits None body with
                   | Some n => Num (sign * n)
                   | None => NaN
                   end) =
                  match digits None (String c s) with
                  | Some n => Num (1 * n)
                  | None => NaN
                  end).
  { destruct c as [[] [] [] [] [] [] [] []]; try done. }
  rewrite Hbody. simpl. unfold is_digit in Hc.
  destruct (digit c) as [d|] eqn:Hd; [|done].
  destruct (digits_Some s (10 * 0 + d)) as [n Hn]. rewrite Hn.
  exists (1 * n). split; [done|].
  pose proof (digit_nonneg c d Hd).
  pose proof (digits_nonneg s (Some (10 * 0 + d)) n) as Hnn.
  simpl in Hnn. specialize (Hnn ltac:(lia) Hn). lia.
Qed.

Lemma span_digits_head (s ds rest : string) (d : ascii) :
  span_digits s = (String d ds, rest) -> is_digit d = true.
Proof.
  destruct s as [|c r]; simpl; [done|].
  destruct (is_digit c) eqn:Hc; [|done].
  destruct (span_digits r). by intros [= <- _ _].
Qed.

Lemma group_parses (X : ascii) (s t rest : string) :
  group X s = (Some t, rest) -> exists n, parseInt t = Num n /\ 0 <= n.
Proof.
  unfold group. destruct (span_digits s) as [[|d ds] [|c r]] eqn:Hs; try done.
  destruct (Ascii.eqb c X); [|done].
  intros [= <- _]. apply parseInt_digit. by eapply span_digits_head.
Qed.

(** [parseDuration] never fails and never yields [NaN]: its result is a
    number of seconds that is not negative. *)
Lemma parseDuration_Num (duration : string) :
  exists n, parseDuration duration = Num n /\ 0 <= n.
Proof.
  unfold parseDuration, match_duration.
  destruct (after_PT duration) as [r|]; [|by exists 0].
  destruct (group "H" r) as [h r1] eqn:Hh.
  destruct (group "M" r1) as [m r2] eqn:Hm.
  destruct (group "S" r2) as [s r3] eqn:Hsec.
  assert (forall (g : option string) X a b, group X a = (g, b) ->
            exists n, match g with Some t => parseInt t | None => Num 0 end = Num n
                      /\ 0 <= n) as Hg.
  { intros [t|] X a b Hgr; [by eapply group_parses | by exists 0]. }
  destruct (Hg _ _ _ _ Hh) as (nh & -> & ?).
  destruct (Hg _ _ _ _ Hm) as (nm & -> & ?).
  destruct (Hg _ _ _ _ Hsec) as (ns & -> & ?).
  simpl. eexists. split; [done|]. lia.
Qed.

Lemma after_PT_None (s : string) : has_PT s = false -> after_PT s = None.
Proof.
  induction s as [|c r IH]; [done|].
  simpl. destruct r as [|c' r']; [by destruct c as [[] [] [] [] [] [] [] []]|].
  destruct (Ascii.eqb c "P") eqn:HP; destruct (Ascii.eqb c' "T") eqn:HT.
  - apply Ascii.eqb_eq in HP as ->. apply Ascii.eqb_eq in HT as ->. done.
  - apply Ascii.eqb_eq in HP as ->. intros Hr.
    assert (has_PT (String c' r') = false) as Hr'.
    { revert Hr HT. clear. destruct c' as [[] [] [] [] [] [] [] []]; try done. }
    specialize (IH Hr'). revert IH HT. clear.
    destruct c' as [[] [] [] [] [] [] [] []]; try done.
  - apply Ascii.eqb_eq in HT as ->. intros Hr.
    assert (has_PT (String "T" r') = false) as Hr'.
    { revert Hr HP. clear. destruct c as [[] [] [] [] [] [] [] []]; try done. }
    specialize (IH Hr'). revert IH HP. clear.
    destruct c as [[] [] [] [] [] [] [] []]; try done.
  - intros Hr.
    assert (has_PT (String c' r') = false) as Hr'.
    { revert Hr HP. clear. destruct c as [[] [] [] [] [] [] [] []]; try done. }
    specialize (IH Hr'). revert IH HP. clear.
    destruct c as [[] [] [] [] [] [] [] []]; try done.
Qed.

(** C7.  The duration parser gives the total of the hours, minutes and
    seconds it finds, a missing component counting for zero, and gives zero
    for a text it cannot match instead of failing: it answers 3723 for
    PT1H2M3S, 300 for PT5M, 0 for PT and 0 for garbage; every text has an
    answer, a number of seconds that is not negative, and a text without
    PT has the answer 0. *)
Theorem parseDuration_examples :
  parseDuration "PT1H2M3S" = Num 3723
  /\ parseDuration "PT5M" = Num 300
  /\ parseDuration "PT" = Num 0
  /\ parseDuration "garbage" = Num 0
  /\ (forall duration, exists n, parseDuration duration = Num n /\ 0 <= n)
  /\ (forall duration, has_PT duration = false -> parseDuration duration = Num 0).
Proof.
  repeat split; try reflexivity.
  - apply parseDuration_Num.
  - intros duration Hno. unfold parseDuration, match_duration.
    by rewrite (after_PT_None duration Hno).
Qed.

Lemma parseDuration_examples_witness :
  has_PT "P1DT2H" = false /\ parseDuration "P1DT2H" = Num 0.
Proof.
  split; [reflexivity|].
  apply (proj2 (proj2 (proj2 (proj2 (proj2 parseDuration_examples))))).
  reflexivity.
Defined.

(** ** The age evaluator *)

Lemma parseDropAfter_unit_ms (dropAfter : string) :
  parseDropAfter dropAfter =
    match unit_ms (slice_last dropAfter) with
    | Some k => inr (Number.mul (parseInt (slice_init dropAfter)) (Num k))
    | None => inl (Err ("Invalid dropAfter unit: " +:+ slice_last dropAfter))
    end.
Proof.
  unfold parseDropAfter, unit_ms.
  destruct (parseInt (slice_init dropAfter)) as [|v];
    repeat (case_match; try done); simpl; unfold mret, result_ret;
    do 2 f_equal; lia.
Qed.

Lemma unit_ms_nonempty (dropAfter : string) (k : Z) :
  unit_ms (slice_last dropAfter) = Some k -> truthy_str (Some dropAfter) = Some dropAfter.
Proof. by destruct dropAfter. Qed.

Section Age.

Context `{Host}.
Variable this : Shop.t.

Lemma shouldDropVideo_threshold (dropAfter : string) (value k publishedAt : Z) :
  Filters.dropAfter (Shop.filters this) = Some dropAfter ->
  unit_ms (slice_last dropAfter) = Some k ->
  parseInt (slice_init dropAfter) = Num value ->
  shouldDropVideo this (Num publishedAt)
  = inr (bool_decide (now - publishedAt > value * k)).
Proof.
  intros Hda Hk Hv. unfold shouldDropVideo.
  rewrite Hda, (unit_ms_nonempty _ _ Hk), parseDropAfter_unit_ms, Hk, Hv.
  simpl. unfold mret, result_ret. f_equal.
  unfold Number.gt, Number.lt.
  apply eq_true_iff_eq. rewrite Z.ltb_lt, bool_decide_eq_true. lia.
Qed.

End Age.

(** C6.  The age evaluator reports a video expired exactly when the
    milliseconds from its publish instant to now are more than the number
    of the expiry window times the fixed length of its unit (86400000 for d,
    7 times that for w, 30 times for m, 365 times for y); so a video
    published 400 days before now is expired under 1y and is not under
    2y. *)
Theorem shouldDropVideo_expired `{Host} (this : Shop.t) :
  (forall (dropAfter : string) (value k publishedAt : Z),
      Filters.dropAfter (Shop.filters this) = Some dropAfter ->
      unit_ms (slice_last dropAfter) = Some k ->
      parseInt (slice_init dropAfter) = Num value ->
      shouldDropVideo this (Num publishedAt)
      = inr (bool_decide (now - publishedAt > value * k)))
  /\ unit_ms "d" = Some 86400000
  /\ unit_ms "w" = Some (7 * 86400000)
  /\ unit_ms "m" = Some (30 * 86400000)
  /\ unit_ms "y" = Some (365 * 86400000)
  /\ (Filters.dropAfter (Shop.filters this) = Some "1y" ->
      shouldDropVideo this (Num (now - 400 * 86400000)) = inr true)
  /\ (Filters.dropAfter (Shop.filters this) = Some "2y" ->
      shouldDropVideo this (Num (now - 400 * 86400000)) = inr false).
Proof.
  split; [apply shouldDropVideo_threshold|].
  repeat split; try reflexivity.
  - intros Hda.
    rewrite (shouldDropVideo_threshold this "1y" 1 (365 * 86400000) _ Hda eq_refl eq_refl).
    f_equal. apply bool_decide_eq_true. lia.
  - intros Hda.
    rewrite (shouldDropVideo_threshold this "2y" 2 (365 * 86400000) _ Hda eq_refl eq_refl).
    f_equal. apply bool_decide_eq_false. lia.
Qed.

Lemma shouldDropVideo_expired_witness :
  let H := table_host (inr []) in
  let this := a_shop "video" false
                (Filters.Build_t None None None (Some "1y") None) in
  Filters.dropAfter (Shop.filters this) = Some "1y"
  /\ shouldDropVideo this (Num (now - 400 * 86400000)) = inr true.
Proof.
  intros H this. split; [reflexivity|].
  apply (proj1 (proj2 (proj2 (proj2 (proj2 (proj2
           (@shouldDropVideo_expired H this))))))).
  reflexivity.
Defined.

(** ** The filter engine *)

Section Filter.

Context `{Host}.

(** The verdict reads the shop through its filters only. *)
Lemma keeps_with_filters (this : Shop.t) (video : Video.t) :
  keeps (with_filters (Shop.filters this) this) video = keeps this video.
Proof. reflexivity. Qed.

Lemma applyFilters_ext (this this' : Shop.t) (videos : list Video.t) :
  (forall video, keeps this video = keeps this' video) ->
  applyFilters this videos = applyFilters this' videos.
Proof.
  intros Hk. induction videos as [|video rest IH]; [done|].
  simpl. by rewrite Hk, IH.
Qed.

Lemma applyFilters_none (this : Shop.t) (videos : list Video.t) :
  (forall video, keeps this video = inr false) ->
  applyFilters this videos = inr [].
Proof.
  intros Hk. induction videos as [|video rest IH]; [done|].
  simpl. by rewrite Hk, IH.
Qed.

(** A bound of zero, like [NaN], fails the truth test that guards the
    comparison. *)
Lemma keeps_durationLessThan_zero (this : Shop.t) (video : Video.t) :
  keeps (with_filters (set_durationLessThan (Some (Num 0)) (Shop.filters this)) this) video
  = keeps (with_filters (set_durationLessThan None (Shop.filters this)) this) video.
Proof. reflexivity. Qed.

Lemma keeps_durationMoreThan_zero (this : Shop.t) (video : Video.t) :
  keeps (with_filters (set_durationMoreThan (Some (Num 0)) (Shop.filters this)) this) video
  = keeps (with_filters (set_durationMoreThan None (Shop.filters this)) this) video.
Proof. reflexivity. Qed.

(** What [init] makes of a configured bound. *)
Lemma init_filters (credentials : gmap string string) (cfg : Config.t)
    (this : Shop.t) :
  init credentials cfg = inr this ->
  let bound (x : option scalar) : option number :=
    match x with
    | Some (JStr s) => if nonempty s then Some (parseInt s) else None
    | Some (JNum n) => if n =? 0 then None else Some (Num n)
    | None => None
    end in
  Filters.durationMoreThan (Shop.filters this) = bound (Config.durationMoreThan cfg)
  /\ Filters.durationLessThan (Shop.filters this) = bound (Config.durationLessThan cfg)
  /\ Filters.dropAfter (Shop.filters this) = Config.dropAfter cfg
  /\ Filters.startDate (Shop.filters this) = Config.startDate cfg
  /\ Shop.noDelete this = bool_decide (Config.noDelete cfg = Some true)
  /\ Shop.mode this = default "metadata" (truthy_str (Config.mode cfg)).
Proof.
  unfold init.
  destruct (truthy_str (credentials !! "youtube_api_key")); [|done].
  destruct (truthy_str (Config.channelId cfg)); [|done].
  destruct (truthy_str (Config.titleIncludes cfg)) as [p|]; simpl.
  - destruct (RegExp_ok p); [|done]. simpl. intros [= <-]. simpl.
    repeat split. by destruct (Config.noDelete cfg) as [[]|].
  - intros [= <-]. simpl.
    repeat split. by destruct (Config.noDelete cfg) as [[]|].
Qed.

End Filter.

(** C9.  With a minimum and a maximum duration configured, both positive
    and the minimum above the maximum, the filter engine keeps no video:
    the verdict on every video is false, whatever its title, publish date
    and duration, and the filtered list is empty. *)
Theorem keeps_none_when_min_above_max `{Host} (this : Shop.t) (min max : Z) :
  Filters.durationMoreThan (Shop.filters this) = Some (Num min) ->
  Filters.durationLessThan (Shop.filters this) = Some (Num max) ->
  0 < max -> max < min ->
  (forall video, keeps this video = inr false)
  /\ (forall videos, applyFilters this videos = inr []).
Proof.
  intros Hmin Hmax Hpos Hlt.
  assert (forall video, keeps this video = inr false) as Hk.
  { intros video. unfold keeps. rewrite Hmin, Hmax.
    destruct (truthy_str (Video.contentDetails video ?. ContentDetails.duration))
      as [d|].
    - destruct (parseDuration_Num d) as (n & -> & Hn).
      repeat case_match; try done; simpl in *;
        repeat match goal with
          | Hc : _ && _ = false |- _ => apply andb_false_iff in Hc as [Hc|Hc]
          | Hc : negb _ = false |- _ => apply negb_false_iff in Hc
          | Hc : (_ =? _) = true |- _ => apply Z.eqb_eq in Hc
          | Hc : (_ <? _) = false |- _ => apply Z.ltb_ge in Hc
          end; lia.
    - repeat case_match; try done; simpl in *;
        repeat match goal with
          | Hc : _ && _ = false |- _ => apply andb_false_iff in Hc as [Hc|Hc]
          | Hc : negb _ = false |- _ => apply negb_false_iff in Hc
          | Hc : (_ =? _) = true |- _ => apply Z.eqb_eq in Hc
          | Hc : (_ <? _) = false |- _ => apply Z.ltb_ge in Hc
          end; lia. }
  split; [done|]. intros videos. by apply applyFilters_none.
Qed.

Lemma keeps_none_when_min_above_max_witness :
  let H := table_host (inr []) in
  let this := a_shop "video" false
                (Filters.Build_t None (Some (Num 600)) (Some (Num 300)) None None) in
  keeps this (a_video "v1" (Some "A tutorial") None (Some "PT7M")) = inr false.
Proof.
  intros H this.
  apply (proj1 (@keeps_none_when_min_above_max H this 600 300
                  eq_refl eq_refl ltac:(lia) ltac:(lia))).
Defined.

(** C10.  A duration bound of 0 counts as no bound: with durationLessThan
    at 0 the verdict on every video is the one without a maximum, with
    durationMoreThan at 0 it is the one without a minimum, and [init] turns a
    configured 0, written as a number or as text, into no bound or into the
    number 0. *)
Theorem zero_bound_is_no_bound `{Host} (this : Shop.t) :
  (forall video,
      keeps (with_filters (set_durationLessThan (Some (Num 0)) (Shop.filters this)) this) video
      = keeps (with_filters (set_durationLessThan None (Shop.filters this)) this) video)
  /\ (forall video,
      keeps (with_filters (set_durationMoreThan (Some (Num 0)) (Shop.filters this)) this) video
      = keeps (with_filters (set_durationMoreThan None (Shop.filters this)) this) video)
  /\ (forall videos,
      applyFilters (with_filters (set_durationLessThan (Some (Num 0)) (Shop.filters this)) this) videos
      = applyFilters (with_filters (set_durationLessThan None (Shop.filters this)) this) videos)
  /\ (forall videos,
      applyFilters (with_filters (set_durationMoreThan (Some (Num 0)) (Shop.filters this)) this) videos
      = applyFilters (with_filters (set_durationMoreThan None (Shop.filters this)) this) videos)
  /\ (forall credentials cfg shop zero,
      init credentials cfg = inr shop ->
      zero = JNum 0 \/ zero = JStr "0" ->
      (Config.durationLessThan cfg = Some zero ->
       Filters.durationLessThan (Shop.filters shop) = None
       \/ Filters.durationLessThan (Shop.filters shop) = Some (Num 0))
      /\ (Config.durationMoreThan cfg = Some zero ->
          Filters.durationMoreThan (Shop.filters shop) = None
          \/ Filters.durationMoreThan (Shop.filters shop) = Some (Num 0))).
Proof.
  split; [apply keeps_durationLessThan_zero|].
  split; [apply keeps_durationMoreThan_zero|].
  split; [intros; apply applyFilters_ext, keeps_durationLessThan_zero|].
  split; [intros; apply applyFilters_ext, keeps_durationMoreThan_zero|].
  intros credentials cfg shop zero Hinit Hzero.
  destruct (init_filters _ _ _ Hinit) as (Hmore & Hless & _).
  split; intros Hcfg.
  - rewrite Hless, Hcfg. destruct Hzero as [-> | ->]; [by left | by right].
  - rewrite Hmore, Hcfg. destruct Hzero as [-> | ->]; [by left | by right].
Qed.

Lemma zero_bound_is_no_bound_witness :
  let H := table_host (inr []) in
  let this := a_shop "video" false
                (Filters.Build_t None (Some (Num 0)) None None None) in
  let cfg := Config.Build_t (Some "UC123") (Some "video") None None
               (Some (JStr "0")) (Some (JNum 0)) None None None in
  init credentials1 cfg = inr this
  /\ (Filters.durationLessThan (Shop.filters this) = None
      \/ Filters.durationLessThan (Shop.filters this) = Some (Num 0)).
Proof.
  intros H this cfg. split; [reflexivity|].
  apply (proj1 (proj2 (proj2 (proj2 (proj2 (@zero_bound_is_no_bound H this))))
                  credentials1 cfg this (JNum 0) eq_refl (or_introl eq_refl))).
  reflexivity.
Defined.

Section Title.

Context `{Host}.

(** The title check is guarded by the title: a video without a title, or
    with an empty one, is never tested against the pattern. *)
Lemma keeps_without_title (this : Shop.t) (video : Video.t) (p : option string) :
  title_of video = None ->
  keeps (with_filters (set_titleIncludes p (Shop.filters this)) this) video
  = keeps (with_filters (set_titleIncludes None (Shop.filters this)) this) video.
Proof.
  unfold title_of. intros Ht. unfold keeps. simpl. rewrite Ht.
  by destruct p.
Qed.

Lemma keeps_title_mismatch (this : Shop.t) (video : Video.t) (p t : string) :
  Filters.titleIncludes (Shop.filters this) = Some p ->
  title_of video = Some t ->
  RegExp_test p t = false ->
  keeps this video = inr false.
Proof.
  unfold title_of. intros Hp Ht Htest. unfold keeps.
  by rewrite Hp, Ht, Htest.
Qed.

(** A title that the pattern matches passes the title check: the verdict
    is the one without a pattern. *)
Lemma keeps_title_match (this : Shop.t) (video : Video.t) (p t : string) :
  Filters.titleIncludes (Shop.filters this) = Some p ->
  title_of video = Some t ->
  RegExp_test p t = true ->
  keeps this video
  = keeps (with_filters (set_titleIncludes None (Shop.filters this)) this) video.
Proof.
  unfold title_of. intros Hp Ht Htest. unfold keeps. simpl.
  by rewrite Hp, Ht, Htest.
Qed.

End Title.

(** C4, amended.  A video whose title is missing or empty is
    not tested against the title pattern: its verdict with a pattern
    configured is its verdict with none.  A configured pattern excludes
    exactly the videos that have a title the pattern does not match: such a
    video is excluded, and a video whose title the pattern matches has the
    verdict it has without a pattern. *)
Theorem absent_title_is_no_constraint `{Host} (this : Shop.t) (video : Video.t) :
  title_of video = None ->
  (forall p : option string,
      keeps (with_filters (set_titleIncludes p (Shop.filters this)) this) video
      = keeps (with_filters (set_titleIncludes None (Shop.filters this)) this) video)
  /\ (forall (other : Video.t) (p t : string),
      Filters.titleIncludes (Shop.filters this) = Some p ->
      title_of other = Some t ->
      RegExp_test p t = false ->
      keeps this other = inr false)
  /\ (forall (other : Video.t) (p t : string),
      Filters.titleIncludes (Shop.filters this) = Some p ->
      title_of other = Some t ->
      RegExp_test p t = true ->
      keeps this other
      = keeps (with_filters (set_titleIncludes None (Shop.filters this)) this) other).
Proof.
  intros Ht. split; [|split].
  - intros p. by apply keeps_without_title.
  - intros other p t. apply keeps_title_mismatch.
  - intros other p t. apply keeps_title_match.
Qed.

Lemma absent_title_is_no_constraint_witness :
  let H := table_host (inr []) in
  let this := a_shop "video" false no_filters in
  let video := a_video "v1" None None (Some "PT5M") in
  title_of video = None
  /\ keeps (with_filters (set_titleIncludes (Some "tutorial") (Shop.filters this)) this) video
     = keeps (with_filters (set_titleIncludes None (Shop.filters this)) this) video.
Proof.
  intros H this video. split; [reflexivity|].
  apply (proj1 (@absent_title_is_no_constraint H this video eq_refl)).
Defined.

(** C4 as stated does not hold: with the pattern tutorial configured, a
    video without a title is kept. *)
Lemma absent_title_passes_pattern :
  let H := table_host (inr []) in
  let this := a_shop "video" false
                (Filters.Build_t (Some "tutorial") None None None None) in
  let video := a_video "v1" None None (Some "PT5M") in
  Filters.titleIncludes (Shop.filters this) = Some "tutorial"
  /\ to_option (Video.snippet video) ?. Snippet.title = None
  /\ keeps this video = inr true
  /\ applyFilters this [video] = inr [video].
Proof. repeat split. Qed.

(** ** The identity scheme *)

Lemma append_cons (c : ascii) (s t : string) :
  String c s +:+ t = String c (s +:+ t).
Proof. reflexivity. Qed.

Lemma append_nil (t : string) : EmptyString +:+ t = t.
Proof. reflexivity. Qed.

Lemma length_append (s t : string) :
  String.length (s +:+ t) = (String.length s + String.length t)%nat.
Proof.
  induction s as [|c s IH]; [done|].
  rewrite append_cons. simpl. by rewrite IH.
Qed.

(** Two texts cut after prefixes of one length. *)
Lemma append_eq_length (a b r1 r2 : string) :
  String.length a = String.length b ->
  a +:+ r1 = b +:+ r2 -> a = b /\ r1 = r2.
Proof.
  revert b. induction a as [|c a IH]; intros [|d b] Hlen; try done.
  rewrite !append_cons. intros [= -> Heq].
  destruct (IH b) as [-> ->]; [by injection Hlen | done | done].
Qed.

Lemma append_inv_tail (a b s : string) : a +:+ s = b +:+ s -> a = b.
Proof.
  intros Heq. apply (append_eq_length a b s s); [|done].
  apply (f_equal String.length) in Heq. rewrite !length_append in Heq. lia.
Qed.

(** Two texts cut at their first separator. *)
Lemma append_eq_hyphen (a b r1 r2 : string) :
  has_hyphen a = false -> has_hyphen b = false ->
  a +:+ String "-" r1 = b +:+ String "-" r2 -> a = b /\ r1 = r2.
Proof.
  revert b. induction a as [|c a IH]; intros [|d b]; simpl.
  - intros _ _. rewrite !append_nil. by intros [= ->].
  - intros _ Hb. rewrite append_nil, append_cons. intros [= <- _].
    by apply orb_false_iff in Hb as [? _].
  - intros Ha _. rewrite append_nil, append_cons. intros [= -> _].
    by apply orb_false_iff in Ha as [? _].
  - intros [_ Ha]%orb_false_iff [_ Hb]%orb_false_iff.
    rewrite !append_cons. intros [= -> Heq].
    by destruct (IH b Ha Hb Heq) as [-> ->].
Qed.

Lemma fileId_unfold (this : Shop.t) (video : Video.t) :
  fileId this video
  = "youtube-channel-" +:+ Shop.channelId this
      +:+ String "-" (template (Video.id video) +:+ String "-" (Shop.mode this)).
Proof. reflexivity. Qed.

(** C2, amended.  Two identifiers made of different parts
    differ when no channel id and no video id has a hyphen in it, and when
    the two channel ids have one length and the two video ids have one
    length; whatever the texts are, identifiers that agree on two of the
    three parts and differ on the third are different. *)
Theorem fileId_injective (this1 this2 : Shop.t) (video1 video2 : Video.t) :
  fileId this1 video1 = fileId this2 video2 ->
  let '(c1, i1, m1) := parts this1 video1 in
  let '(c2, i2, m2) := parts this2 video2 in
  (has_hyphen c1 = false /\ has_hyphen c2 = false
   /\ has_hyphen i1 = false /\ has_hyphen i2 = false
   \/ String.length c1 = String.length c2 /\ String.length i1 = String.length i2 ->
   (c1, i1, m1) = (c2, i2, m2))
  /\ (c1 = c2 -> i1 = i2 -> m1 = m2)
  /\ (i1 = i2 -> m1 = m2 -> c1 = c2)
  /\ (c1 = c2 -> m1 = m2 -> i1 = i2).
Proof.
  rewrite !fileId_unfold. unfold parts.
  intros Heq%(inj (String.app _)).
  repeat split.
  - intros [(Hc1 & Hc2 & Hi1 & Hi2) | [Hc Hi]].
    + destruct (append_eq_hyphen _ _ _ _ Hc1 Hc2 Heq) as [-> Hrest].
      by destruct (append_eq_hyphen _ _ _ _ Hi1 Hi2 Hrest) as [-> ->].
    + destruct (append_eq_length _ _ _ _ Hc Heq) as [-> [= Hrest]].
      by destruct (append_eq_length _ _ _ _ Hi Hrest) as [-> [= ->]].
  - intros Hc Hi. rewrite Hc, Hi in Heq.
    apply (inj (String.app _)) in Heq. injection Heq as Heq.
    apply (inj (String.app _)) in Heq. by injection Heq.
  - intros Hi Hm. rewrite Hi, Hm in Heq.
    by apply append_inv_tail in Heq.
  - intros Hc Hm. rewrite Hc, Hm in Heq.
    apply (inj (String.app _)) in Heq. injection Heq as Heq.
    by apply append_inv_tail in Heq.
Qed.

Lemma fileId_injective_witness :
  let this1 := a_shop "video" false no_filters in
  let this2 := a_shop "video" true no_filters in
  let video := a_video "dQw4w9WgXcQ" None None None in
  fileId this1 video = fileId this2 video
  /\ parts this1 video = parts this2 video.
Proof.
  intros this1 this2 video. split; [reflexivity|].
  apply (proj1 (fileId_injective this1 this2 video video eq_refl)).
  right. split; reflexivity.
Defined.

(** C2 as stated does not hold: the channel a-b with the video c and
    the channel a with the video b-c have one identifier. *)
Lemma fileId_collision :
  let this1 := with_filters no_filters
                 (Shop.Build_t "a-b" "video" false true no_filters) in
  let this2 := with_filters no_filters
                 (Shop.Build_t "a" "video" false true no_filters) in
  let video1 := a_video "c" None None None in
  let video2 := a_video "b-c" None None None in
  parts this1 video1 <> parts this2 video2
  /\ Shop.mode this1 = Shop.mode this2
  /\ Shop.channelId this1 <> Shop.channelId this2
  /\ fileId this1 video1 = fileId this2 video2.
Proof. repeat split; discriminate. Qed.

(** ** The reconciler *)

Section Reconciler.

Context `{Host}.
Variable this : Shop.t.


Lemma scan_spec (existingFiles : gmap string Z) (videos : list Video.t)
    (currentFileIds : gset string) (newVideos : list Video.t) :
  scan this existingFiles videos currentFileIds newVideos
  = (list_to_set (fileId this <$> videos) ∪ currentFileIds,
     newVideos ++ filter (fun v => fileId this v ∉ dom existingFiles) videos).
Proof.
  revert currentFileIds newVideos.
  induction videos as [|video rest IH]; intros cur new; simpl.
  - f_equal; [by rewrite (left_id_L ∅ (∪)) | by rewrite app_nil_r].
  - rewrite IH. f_equal.
    { rewrite (comm_L (∪) {[_]} (list_to_set _)).
      by rewrite <- (assoc_L (∪)). }
    destruct (decide (fileId this video ∈ dom existingFiles)) as [Hin|Hout].
    + by rewrite filter_cons_False by (intros Hn; by apply Hn).
    + by rewrite filter_cons_True, <- app_assoc by done.
Qed.

Lemma addAll_lookup (videos : list Video.t) (updates changes : gmap string Entry.t)
    (k : string) :
  addAll this videos updates = inr changes ->
  ((k ∉ (fileId this <$> videos)) /\ changes !! k = updates !! k)
  \/ (exists video content,
        video ∈ videos /\ fileId this video = k
        /\ fetchContent this video = inr content
        /\ changes !! k = Some (add_entry content)).
Proof.
  revert updates. induction videos as [|video rest IH]; intros updates; simpl.
  - intros [= <-]. left. split; [|done]. by intros ?%elem_of_nil.
  - destruct (fetchContent this video) as [e|content] eqn:Hfetch; [done|]. simpl.
    intros Hrest. destruct (IH _ Hrest) as [[Hnot Hlook] | (v & c & Hv & Hk & Hc & Hlook)].
    + destruct (decide (fileId this video = k)) as [Hk|Hk].
      * right. exists video, content. repeat split; [by left | done | done |].
        by rewrite Hlook, <- Hk, lookup_insert_eq.
      * left. split.
        -- intros [?|?]%elem_of_cons; [congruence | done].
        -- by rewrite Hlook, lookup_insert_ne.
    + right. exists v, c. repeat split; [by right | done..].
Qed.

Lemma fetchContent_valid (video : Video.t) :
  valid_mode (Shop.mode this) -> exists content, fetchContent this video = inr content.
Proof.
  unfold valid_mode, fetchContent. intros Hmode.
  repeat (apply elem_of_cons in Hmode as [-> | Hmode]; [by eexists|]).
  by apply elem_of_nil in Hmode.
Qed.

Lemma fetchContent_invalid (video : Video.t) :
  ~ valid_mode (Shop.mode this) ->
  fetchContent this video = inl (Err ("Invalid mode: " +:+ Shop.mode this)).
Proof.
  unfold valid_mode, fetchContent. intros Hmode.
  repeat (case_match;
          [exfalso; apply Hmode;
           match goal with
           | Heq : String.eqb _ _ = true |- _ => apply String.eqb_eq in Heq as ->
           end; repeat constructor|]).
  done.
Qed.

Lemma addAll_valid (videos : list Video.t) (updates : gmap string Entry.t) :
  valid_mode (Shop.mode this) -> exists changes, addAll this videos updates = inr changes.
Proof.
  intros Hmode. revert updates.
  induction videos as [|video rest IH]; intros updates; simpl; [by eexists|].
  destruct (fetchContent_valid video Hmode) as [content ->]. simpl. apply IH.
Qed.

Lemma deleteAll_lookup (keys : list string) (currentFileIds : gset string)
    (updates : gmap string Entry.t) (k : string) :
  deleteAll keys currentFileIds updates !! k
  = if decide (k ∈ keys) then
      if decide (k ∈ currentFileIds) then updates !! k else Some delete_entry
    else updates !! k.
Proof.
  revert updates. induction keys as [|key rest IH]; intros updates.
  - rewrite decide_False; [done|]. by intros ?%elem_of_nil.
  - cbn [deleteAll]. rewrite IH.
    destruct (decide (key = k)) as [->|Hne].
    + rewrite (decide_True (P := k ∈ k :: rest)) by by left.
      destruct (decide (k ∈ currentFileIds)).
      * by destruct (decide (k ∈ rest)).
      * rewrite lookup_insert_eq. by destruct (decide (k ∈ rest)).
    + assert (updates !! k
              = (if decide (key ∈ currentFileIds) then updates
                 else <[key:=delete_entry]> updates) !! k) as <-.
      { destruct (decide (key ∈ currentFileIds)); [done|].
        by rewrite lookup_insert_ne. }
      destruct (decide (k ∈ rest)) as [Hin|Hout].
      * rewrite (decide_True (P := k ∈ key :: rest)) by by right. done.
      * rewrite (decide_False (P := k ∈ key :: rest)); [done|].
        intros [?|?]%elem_of_cons; [congruence | done].
Qed.

Lemma elem_of_keys (existingFiles : gmap string Z) (k : string) :
  k ∈ (map_to_list existingFiles).*1 <-> k ∈ dom existingFiles.
Proof.
  rewrite elem_of_dom, list_elem_of_fmap. split.
  - intros ([k' z] & -> & Hin). apply elem_of_map_to_list in Hin. by eexists.
  - intros [z Hz]. exists (k, z). split; [done|]. by apply elem_of_map_to_list.
Qed.

Lemma reconcile_unfold (videos : list Video.t) (existingFiles : gmap string Z) :
  reconcile this videos existingFiles
  = updates ← addAll this (filter (fun v => fileId this v ∉ dom existingFiles) videos) ∅;
    mret (if Shop.noDelete this then updates
          else deleteAll (map_to_list existingFiles).*1
                 (list_to_set (fileId this <$> videos)) updates).
Proof.
  unfold reconcile. rewrite scan_spec. simpl.
  by rewrite (right_id_L ∅ (∪)).
Qed.

(** An identifier of the prior state gets no entry, or a [delete] entry
    when it is not current and deletions are allowed. *)
Lemma reconcile_prior (videos : list Video.t) (existingFiles : gmap string Z)
    (changes : gmap string Entry.t) (k : string) :
  reconcile this videos existingFiles = inr changes ->
  k ∈ dom existingFiles ->
  changes !! k
  = if Shop.noDelete this then None
    else if decide (k ∈ (fileId this <$> videos)) then None else Some delete_entry.
Proof.
  rewrite reconcile_unfold. intros Hrec Hprior.
  destruct (addAll this _ ∅) as [e|updates] eqn:Hadd; [done|].
  simpl in Hrec. injection Hrec as <-.
  assert (updates !! k = None) as Hnone.
  { destruct (addAll_lookup _ _ _ k Hadd) as [[_ ->] | (v & c & Hv & Hk & _)];
      [done|].
    apply list_elem_of_filter in Hv as [Hnew _]. by rewrite Hk in Hnew. }
  destruct (Shop.noDelete this); [done|].
  rewrite deleteAll_lookup.
  rewrite decide_True by by apply elem_of_keys.
  destruct (decide (k ∈ (fileId this <$> videos))) as [Hcur|Hcur].
  - by rewrite decide_True by by apply elem_of_list_to_set.
  - by rewrite decide_False by by rewrite elem_of_list_to_set.
Qed.

(** An identifier outside the prior state gets an [add] entry when it is
    current and no entry when it is not. *)
Lemma reconcile_new (videos : list Video.t) (existingFiles : gmap string Z)
    (changes : gmap string Entry.t) (k : string) :
  reconcile this videos existingFiles = inr changes ->
  k ∉ dom existingFiles ->
  ((k ∉ (fileId this <$> videos)) /\ changes !! k = None)
  \/ (exists video content,
        video ∈ videos /\ fileId this video = k
        /\ fetchContent this video = inr content
        /\ changes !! k = Some (add_entry content)).
Proof.
  rewrite reconcile_unfold. intros Hrec Hnew.
  destruct (addAll this _ ∅) as [e|updates] eqn:Hadd; [done|].
  simpl in Hrec. injection Hrec as <-.
  assert ((if Shop.noDelete this then updates
           else deleteAll (map_to_list existingFiles).*1
                  (list_to_set (fileId this <$> videos)) updates) !! k = updates !! k)
    as ->.
  { destruct (Shop.noDelete this); [done|].
    rewrite deleteAll_lookup, decide_False; [done|].
    by intros Hk%elem_of_keys. }
  destruct (addAll_lookup _ _ _ k Hadd) as [[Hnot Hlook] | (v & c & Hv & Hk & Hc & Hlook)].
  - left. split; [|by rewrite Hlook].
    intros (v & -> & Hv)%list_elem_of_fmap. apply Hnot.
    apply list_elem_of_fmap_2. by apply list_elem_of_filter.
  - right. exists v, c. apply list_elem_of_filter in Hv as [_ Hv]. done.
Qed.

Lemma reconcile_valid (videos : list Video.t) (existingFiles : gmap string Z) :
  valid_mode (Shop.mode this) ->
  exists changes, reconcile this videos existingFiles = inr changes.
Proof.
  intros Hmode. rewrite reconcile_unfold.
  destruct (addAll_valid (filter (fun v => fileId this v ∉ dom existingFiles) videos) ∅ Hmode)
    as [updates ->].
  by eexists.
Qed.

End Reconciler.

Section Pass.

Context `{Host}.
Variable this : Shop.t.

Lemma update_reconcile_pass (lastUsed : Z) (existingFiles : gmap string Z)
    (videos filteredVideos : list Video.t) :
  getAllVideoDetails (Shop.channelId this) = inr videos ->
  applyFilters this videos = inr filteredVideos ->
  update this lastUsed existingFiles = reconcile_pass this filteredVideos existingFiles.
Proof.
  intros Hlist Hfilter. unfold update, update_try, reconcile_pass.
  by rewrite Hlist; simpl; rewrite Hfilter.
Qed.

Lemma update_try_cases (existingFiles : gmap string Z) :
  (exists e, getAllVideoDetails (Shop.channelId this) = inl e
             /\ update_try this existingFiles = inl e)
  \/ (exists videos e, getAllVideoDetails (Shop.channelId this) = inr videos
                       /\ applyFilters this videos = inl e
                       /\ update_try this existingFiles = inl e)
  \/ (exists videos filteredVideos,
         getAllVideoDetails (Shop.channelId this) = inr videos
         /\ applyFilters this videos = inr filteredVideos
         /\ update_try this existingFiles = reconcile this filteredVideos existingFiles).
Proof.
  unfold update_try.
  destruct (getAllVideoDetails (Shop.channelId this)) as [e|videos]; simpl.
  - left. by exists e.
  - destruct (applyFilters this videos) as [e|filteredVideos] eqn:Hf; simpl.
    + right; left. by exists videos, e.
    + right; right. by exists videos, filteredVideos.
Qed.

Lemma fmap_NoDup_inj (videos : list Video.t) (v w : Video.t) :
  NoDup (fileId this <$> videos) -> v ∈ videos -> w ∈ videos ->
  fileId this v = fileId this w -> v = w.
Proof.
  induction videos as [|x rest IH]; [by intros _ ?%elem_of_nil|].
  rewrite fmap_cons, NoDup_cons. intros [Hx Hnd].
  intros [->|Hv]%elem_of_cons [->|Hw]%elem_of_cons Heq; [done| | |by apply IH].
  - destruct Hx. rewrite Heq. by apply list_elem_of_fmap_2.
  - destruct Hx. rewrite <- Heq. by apply list_elem_of_fmap_2.
Qed.

Lemma filter_none {A} (P : A -> Prop) `{forall x, Decision (P x)} (l : list A) :
  (forall x, x ∈ l -> ~ P x) -> filter P l = [].
Proof.
  induction l as [|x l IH]; [done|]. intros Hall.
  rewrite filter_cons_False by (apply Hall; by left).
  apply IH. intros y Hy. apply Hall. by right.
Qed.

Lemma applyChanges_lookup (changes : gmap string Entry.t)
    (priorState : gmap string Z) (marker : Z) (k : string) :
  applyChanges changes priorState marker !! k
  = match changes !! k with
    | Some entry =>
        match Entry.action entry with
        | Action.delete => None
        | _ => Some marker
        end
    | None => priorState !! k
    end.
Proof.
  unfold applyChanges. rewrite lookup_merge.
  by destruct (changes !! k), (priorState !! k).
Qed.

Lemma applyChanges_empty (priorState : gmap string Z) (marker : Z) :
  applyChanges ∅ priorState marker = priorState.
Proof. apply map_eq. intros k. by rewrite applyChanges_lookup, lookup_empty. Qed.

(** After the change set of a pass is applied, the same videos give an
    empty change set. *)
Lemma reconcile_pass_fixed_point (filteredVideos : list Video.t)
    (priorState : gmap string Z) (marker : Z) :
  reconcile_pass this filteredVideos
    (applyChanges (reconcile_pass this filteredVideos priorState) priorState marker)
  = ∅.
Proof.
  unfold reconcile_pass at 2.
  destruct (reconcile this filteredVideos priorState) as [e|changes] eqn:Hrec; simpl.
  { rewrite applyChanges_empty. unfold reconcile_pass. by rewrite Hrec. }
  set (priorState' := applyChanges changes priorState marker).
  assert (forall k, k ∈ (fileId this <$> filteredVideos) -> k ∈ dom priorState') as Hcur.
  { intros k Hk. apply elem_of_dom. unfold priorState'.
    rewrite applyChanges_lookup.
    destruct (decide (k ∈ dom priorState)) as [Hin|Hout].
    - rewrite (reconcile_prior this _ _ _ k Hrec Hin).
      rewrite decide_True by done. apply elem_of_dom in Hin.
      by destruct (Shop.noDelete this).
    - destruct (reconcile_new this _ _ _ k Hrec Hout)
        as [[Hnot _] | (v & c & _ & _ & _ & ->)]; [done | by eexists]. }
  assert (Shop.noDelete this = false ->
          forall k, k ∈ dom priorState' -> k ∈ (fileId this <$> filteredVideos)) as Hdom.
  { intros Hdel k [z Hz]%elem_of_dom. unfold priorState' in Hz.
    rewrite applyChanges_lookup in Hz.
    destruct (decide (k ∈ dom priorState)) as [Hin|Hout].
    - rewrite (reconcile_prior this _ _ _ k Hrec Hin), Hdel in Hz.
      by destruct (decide (k ∈ (fileId this <$> filteredVideos))).
    - destruct (reconcile_new this _ _ _ k Hrec Hout)
        as [[_ Hnone] | (v & c & Hv & <- & _)].
      + rewrite Hnone in Hz. apply not_elem_of_dom in Hout. congruence.
      + by apply list_elem_of_fmap_2. }
  unfold reconcile_pass. rewrite reconcile_unfold.
  rewrite filter_none; cycle 1.
  { intros v Hv Hnew. apply Hnew, Hcur. by apply list_elem_of_fmap_2. }
  simpl. destruct (Shop.noDelete this) eqn:Hdel; [done|].
  apply map_eq. intros k. rewrite deleteAll_lookup, lookup_empty.
  destruct (decide (k ∈ (map_to_list priorState').*1)) as [Hk|]; [|done].
  rewrite decide_True; [done|].
  apply elem_of_list_to_set, Hdom; [done|]. by apply elem_of_keys.
Qed.

End Pass.

(** C1.  With one of the five modes, and once the listing and the filters
    have given the filtered videos, the change set of [update] has: an add
    entry, carrying the content fetched for the mode, for the identifier of
    every filtered video that is not a key of the prior state (the content
    of the video itself when no two filtered videos share an identifier);
    when the no-delete flag is off, a delete entry without content for every
    key of the prior state that is not a current identifier; no entry for an
    identifier that is both; and nothing else.  No entry has the action
    update, and with the no-delete flag on no entry is a delete entry and no
    key of the prior state has an entry.  The content fetched for a video
    is, by mode: for metadata the snippet printed as JSON (null for a null
    snippet, nothing for a missing one); for thumbnail the address of the
    high thumbnail, or the empty text; for transcript the texts of the
    transcript joined by spaces, under the header when it is on, and the
    fallback text when the transcript cannot be fetched or, with the header
    on, the publish date is invalid; for video the watch address of the id;
    for audio the placeholder text. *)
Theorem update_change_set `{Host} (this : Shop.t) (lastUsed : Z)
    (existingFiles : gmap string Z) (videos filteredVideos : list Video.t) :
  valid_mode (Shop.mode this) ->
  getAllVideoDetails (Shop.channelId this) = inr videos ->
  applyFilters this videos = inr filteredVideos ->
  let changes := update this lastUsed existingFiles in
  let current := fileId this <$> filteredVideos in
  (forall video,
      video ∈ filteredVideos -> fileId this video ∉ dom existingFiles ->
      exists source content,
        source ∈ filteredVideos /\ fileId this source = fileId this video
        /\ fetchContent this source = inr content
        /\ changes !! fileId this video = Some (add_entry content))
  /\ (NoDup current ->
      forall video,
        video ∈ filteredVideos -> fileId this video ∉ dom existingFiles ->
        exists content,
          fetchContent this video = inr content
          /\ changes !! fileId this video = Some (add_entry content))
  /\ (Shop.noDelete this = false ->
      forall k, k ∈ dom existingFiles -> k ∉ current ->
                changes !! k = Some delete_entry)
  /\ (forall k, k ∈ dom existingFiles -> k ∈ current -> changes !! k = None)
  /\ (forall k entry,
      changes !! k = Some entry ->
      Entry.action entry = Action.add /\ k ∈ current /\ k ∉ dom existingFiles
      \/ entry = delete_entry /\ Shop.noDelete this = false
         /\ k ∈ dom existingFiles /\ k ∉ current)
  /\ (forall k entry, changes !! k = Some entry -> Entry.action entry <> Action.update)
  /\ (Shop.noDelete this = true ->
      forall k entry,
        changes !! k = Some entry ->
        Entry.action entry <> Action.delete /\ k ∉ dom existingFiles)
  /\ (forall video,
      (Shop.mode this = "metadata" ->
       fetchContent this video
       = inr (match Video.snippet video with
              | Undefined => None
              | Null => Some "null"
              | Val snippet => Some (JSON_stringify snippet)
              end))
      /\ (Shop.mode this = "thumbnail" ->
          fetchContent this video
          = inr (Some (default ""
                         (truthy_str
                            (to_option (Video.snippet video) ?. Snippet.thumbnails
                               ?. Thumbnails.high ?. Thumbnail.url)))))
      /\ (Shop.mode this = "transcript" ->
          fetchContent this video
          = inr (Some
                   match fetchTranscript (Video.id video) with
                   | None => "Transcript not available"
                   | Some transcript =>
                       if Shop.includeHeader this then
                         let snippet := to_option (Video.snippet video) in
                         let headed (dateUploaded : string) :=
                           "YouTube video: "
                             +:+ default "Unknown Title"
                                   (truthy_str (snippet ?. Snippet.title))
                             +:+ "
Video URL: " +:+ ("https://www.youtube.com/watch?v=" +:+ template (Video.id video))
                             +:+ "
Uploaded by: "
                             +:+ default "Unknown Channel"
                                   (truthy_str (snippet ?. Snippet.channelTitle))
                             +:+ "
Date: " +:+ dateUploaded +:+ "
Video transcript follows:
" +:+ join " " transcript +:+ "
[end of video]" in
                         match truthy_str (snippet ?. Snippet.publishedAt) with
                         | None => headed "Unknown Date"
                         | Some publishedAt =>
                             match Date_parse publishedAt with
                             | Num t => headed (Date_toISOString t)
                             | NaN => "Transcript not available"
                             end
                         end
                       else join " " transcript
                   end))
      /\ (Shop.mode this = "video" ->
          fetchContent this video
          = inr (Some ("https://www.youtube.com/watch?v=" +:+ template (Video.id video))))
      /\ (Shop.mode this = "audio" ->
          fetchContent this video
          = inr (Some "Audio extraction not yet implemented"))).
Proof.
  intros Hmode Hlist Hfilter changes current.
  destruct (reconcile_valid this filteredVideos existingFiles Hmode) as [cs Hrec].
  assert (changes = cs) as Hcs.
  { unfold changes. rewrite (update_reconcile_pass this _ _ _ _ Hlist Hfilter).
    unfold reconcile_pass. by rewrite Hrec. }
  clearbody changes. subst changes.
  assert (forall video,
      video ∈ filteredVideos -> fileId this video ∉ dom existingFiles ->
      exists source content,
        source ∈ filteredVideos /\ fileId this source = fileId this video
        /\ fetchContent this source = inr content
        /\ cs !! fileId this video = Some (add_entry content)) as Hadd.
  { intros video Hv Hnew.
    destruct (reconcile_new this _ _ _ _ Hrec Hnew) as [[Hnot _] | Hsrc]; [|done].
    destruct Hnot. by apply list_elem_of_fmap_2. }
  assert (forall k entry,
      cs !! k = Some entry ->
      Entry.action entry = Action.add /\ k ∈ current /\ k ∉ dom existingFiles
      \/ entry = delete_entry /\ Shop.noDelete this = false
         /\ k ∈ dom existingFiles /\ k ∉ current) as Hexact.
  { intros k entry Hk. destruct (decide (k ∈ dom existingFiles)) as [Hin|Hout].
    - rewrite (reconcile_prior this _ _ _ k Hrec Hin) in Hk. right.
      destruct (Shop.noDelete this); [done|].
      destruct (decide (k ∈ (fileId this <$> filteredVideos))); [done|].
      by injection Hk as <-.
    - left. destruct (reconcile_new this _ _ _ k Hrec Hout)
        as [[_ Hnone] | (v & c & Hv & <- & _ & Hlook)]; [congruence|].
      rewrite Hlook in Hk. injection Hk as <-.
      repeat split; [|done]. by apply list_elem_of_fmap_2. }
  split; [done|]. split.
  { intros Hnd video Hv Hnew.
    destruct (Hadd video Hv Hnew) as (source & content & Hs & Heq & Hfetch & Hlook).
    exists content.
    by rewrite (fmap_NoDup_inj this _ _ _ Hnd Hs Hv Heq) in Hfetch. }
  split.
  { intros Hdel k Hin Hout. rewrite (reconcile_prior this _ _ _ k Hrec Hin), Hdel.
    by rewrite decide_False. }
  split.
  { intros k Hin Hcur. rewrite (reconcile_prior this _ _ _ k Hrec Hin).
    destruct (Shop.noDelete this); [done|]. by rewrite decide_True. }
  split; [done|]. split.
  { intros k entry Hk Hupd.
    destruct (Hexact k entry Hk) as [(Ha & _) | (-> & _)]; [congruence | done]. }
  split.
  { intros Hno k entry Hk.
    destruct (Hexact k entry Hk) as [(Ha & _ & Hout) | (_ & Hdel & _)];
      [|congruence].
    split; [congruence | done]. }
  intros video. unfold fetchContent.
  split; [by intros ->|]. split; [by intros ->|]. split.
  { intros ->. simpl. do 2 f_equal. unfold getTranscriptContent.
    destruct (fetchTranscript (Video.id video)) as [transcript|]; [|done].
    destruct (Shop.includeHeader this); [|done].
    destruct (truthy_str (to_option (Video.snippet video) ?. Snippet.publishedAt))
      as [publishedAt|]; [|done].
    by destruct (Date_parse publishedAt). }
  split; by intros ->.
Qed.

Lemma update_change_set_witness :
  let H := table_host (inr [video2]) in
  let this := a_shop "video" false no_filters in
  update this 0 prior1 !! "youtube-channel-UC123-v1-video" = Some delete_entry
  /\ update this 0 prior1 !! "youtube-channel-UC123-v2-video"
     = Some (add_entry (Some "https://www.youtube.com/watch?v=v2")).
Proof.
  intros H this.
  assert (valid_mode (Shop.mode this)) as Hmode by (do 4 constructor).
  pose proof (@update_change_set H this 0 prior1 [video2] [video2]
                Hmode eq_refl eq_refl)
    as (_ & Hadd & Hdelete & _ & _ & _ & _ & Hcontent).
  split.
  - apply (Hdelete eq_refl).
    + apply elem_of_dom. exists 5. reflexivity.
    + intros Hin. apply list_elem_of_singleton in Hin. discriminate Hin.
  - destruct (Hadd (NoDup_singleton _) video2) as (content & Hfetch & Hlook).
    + apply list_elem_of_singleton. reflexivity.
    + intros Hin. apply elem_of_dom in Hin as [z Hz]. discriminate Hz.
    + destruct (Hcontent video2) as (_ & _ & _ & Hvideo & _).
      rewrite (Hvideo eq_refl) in Hfetch. injection Hfetch as <-.
      exact Hlook.
Defined.

(** The scenarios of the reconciler: an empty prior state and two videos; a
    prior state with the first video and a filtered set with the second;
    the same with the no-delete flag on. *)
Example update_scenarios :
  @update (table_host (inr [video1; video2])) (a_shop "video" false no_filters) 0 ∅
  = {[ "youtube-channel-UC123-v1-video"
         := add_entry (Some "https://www.youtube.com/watch?v=v1");
       "youtube-channel-UC123-v2-video"
         := add_entry (Some "https://www.youtube.com/watch?v=v2") ]}
  /\ @update (table_host (inr [video2])) (a_shop "video" false no_filters) 0 prior1
     = {[ "youtube-channel-UC123-v1-video" := delete_entry;
          "youtube-channel-UC123-v2-video"
            := add_entry (Some "https://www.youtube.com/watch?v=v2") ]}
  /\ @update (table_host (inr [video2])) (a_shop "video" true no_filters) 0 prior1
     = {[ "youtube-channel-UC123-v2-video"
            := add_entry (Some "https://www.youtube.com/watch?v=v2") ]}.
Proof. repeat split; vm_compute; reflexivity. Qed.

(** The content of a video depends on the host through the JSON printer,
    the transcript service and the two date functions only. *)
Lemma fetchContent_hosts (H1 H2 : Host) (this : Shop.t) (video : Video.t) :
  (forall s, @JSON_stringify H1 s = @JSON_stringify H2 s) ->
  (forall i, @fetchTranscript H1 i = @fetchTranscript H2 i) ->
  (forall s, @Date_parse H1 s = @Date_parse H2 s) ->
  (forall t, @Date_toISOString H1 t = @Date_toISOString H2 t) ->
  @fetchContent H1 this video = @fetchContent H2 this video.
Proof.
  intros Hjson Htr Hparse Hiso.
  unfold fetchContent, getMetadataContent, getTranscriptContent.
  rewrite Htr.
  destruct (Video.snippet video) as [| |snippet]; simpl; try done.
  rewrite Hjson.
  destruct (truthy_str (Snippet.publishedAt snippet)) as [p|]; [|done].
  rewrite Hparse. destruct (@Date_parse H2 p) as [|t]; [done|].
  by rewrite Hiso.
Qed.

Lemma addAll_hosts (H1 H2 : Host) (this : Shop.t) (videos : list Video.t)
    (updates : gmap string Entry.t) :
  (forall video, @fetchContent H1 this video = @fetchContent H2 this video) ->
  @addAll H1 this videos updates = @addAll H2 this videos updates.
Proof.
  intros Hfetch. revert updates.
  induction videos as [|video rest IH]; intros updates; [done|].
  simpl. rewrite Hfetch. destruct (@fetchContent H2 this video); [done|].
  simpl. apply IH.
Qed.

(** C3.  Two passes over the same filtered videos and the same prior state
    give the same change set, whatever the clock and the listing are at the
    two passes, as long as the content fetchers answer alike; and once the
    change set of a pass is applied to the prior state (added identifiers
    recorded, deleted ones dropped), a pass over the same filtered videos
    gives the empty change set.  The same holds of [update], whose answer
    does not depend on the time of the last run. *)
Theorem reconcile_deterministic_fixed_point (H1 H2 : Host) (this : Shop.t)
    (filteredVideos : list Video.t) (priorState : gmap string Z) (marker : Z) :
  (forall s, @JSON_stringify H1 s = @JSON_stringify H2 s) ->
  (forall i, @fetchTranscript H1 i = @fetchTranscript H2 i) ->
  (forall s, @Date_parse H1 s = @Date_parse H2 s) ->
  (forall t, @Date_toISOString H1 t = @Date_toISOString H2 t) ->
  @reconcile_pass H1 this filteredVideos priorState
  = @reconcile_pass H2 this filteredVideos priorState
  /\ @reconcile_pass H2 this filteredVideos
       (applyChanges (@reconcile_pass H1 this filteredVideos priorState)
          priorState marker)
     = ∅
  /\ (forall lastUsed lastUsed',
      @update H1 this lastUsed priorState = @update H1 this lastUsed' priorState)
  /\ (forall lastUsed lastUsed',
      @update H1 this lastUsed'
        (applyChanges (@update H1 this lastUsed priorState) priorState marker)
      = ∅).
Proof.
  intros Hjson Htr Hparse Hiso.
  assert (@reconcile_pass H1 this filteredVideos priorState
          = @reconcile_pass H2 this filteredVideos priorState) as Hsame.
  { unfold reconcile_pass. rewrite !reconcile_unfold.
    by rewrite (addAll_hosts H1 H2)
      by (intros video; by apply fetchContent_hosts). }
  split; [done|]. split.
  { rewrite Hsame. apply reconcile_pass_fixed_point. }
  split; [done|].
  intros lastUsed lastUsed'.
  destruct (@update_try_cases H1 this priorState)
    as [(e & Hlist & Htry) | [(videos & e & Hlist & Hfilter & Htry)
                             | (videos & filtered & Hlist & Hfilter & _)]].
  - unfold update at 2. rewrite Htry. simpl. rewrite applyChanges_empty.
    unfold update. by rewrite Htry.
  - unfold update at 2. rewrite Htry. simpl. rewrite applyChanges_empty.
    unfold update. by rewrite Htry.
  - rewrite !(@update_reconcile_pass H1 this _ _ _ _ Hlist Hfilter).
    apply reconcile_pass_fixed_point.
Qed.

Lemma reconcile_deterministic_fixed_point_witness :
  let H1 := table_host (inr [video2]) in
  let H2 := table_host (inl (Err "quotaExceeded")) in
  let this := a_shop "video" false no_filters in
  @reconcile_pass H2 this [video2]
    (applyChanges (@reconcile_pass H1 this [video2] prior1) prior1 7)
  = ∅.
Proof.
  intros H1 H2 this.
  apply (proj1 (proj2 (reconcile_deterministic_fixed_point H1 H2 this [video2] prior1 7
                         (fun _ => eq_refl) (fun _ => eq_refl)
                         (fun _ => eq_refl) (fun _ => eq_refl)))).
Defined.

(** A transcript that cannot be fetched is no failure of the pass: the
    rejection is caught where it happens and the content is the fallback
    text. *)
Lemma fetchContent_transcript_unavailable `{Host} (this : Shop.t) (video : Video.t) :
  Shop.mode this = "transcript" ->
  fetchTranscript (Video.id video) = None ->
  fetchContent this video = inr (Some "Transcript not available").
Proof.
  intros Hmode Hnone. unfold fetchContent, getTranscriptContent.
  by rewrite Hmode, Hnone.
Qed.

(** C8.  When a step of the pass fails, [update] answers with the empty
    mapping: whenever the [try] block ends in an error, and so when the
    listing fails, when a filter throws, when the reconciliation of the
    filtered videos throws, and so when the mode is none of the five and a
    filtered video is new. *)
Theorem update_failure_is_empty `{Host} (this : Shop.t) (lastUsed : Z)
    (existingFiles : gmap string Z) :
  (forall e, update_try this existingFiles = inl e ->
             update this lastUsed existingFiles = ∅)
  /\ (forall e, getAllVideoDetails (Shop.channelId this) = inl e ->
                update this lastUsed existingFiles = ∅)
  /\ (forall videos e,
      getAllVideoDetails (Shop.channelId this) = inr videos ->
      applyFilters this videos = inl e ->
      update this lastUsed existingFiles = ∅)
  /\ (forall videos filteredVideos e,
      getAllVideoDetails (Shop.channelId this) = inr videos ->
      applyFilters this videos = inr filteredVideos ->
      reconcile this filteredVideos existingFiles = inl e ->
      update this lastUsed existingFiles = ∅)
  /\ (forall videos filteredVideos video,
      getAllVideoDetails (Shop.channelId this) = inr videos ->
      applyFilters this videos = inr filteredVideos ->
      ~ valid_mode (Shop.mode this) ->
      video ∈ filteredVideos -> fileId this video ∉ dom existingFiles ->
      update this lastUsed existingFiles = ∅).
Proof.
  split; [|split; [|split; [|split]]].
  - intros e Htry. unfold update. by rewrite Htry.
  - intros e Hlist. unfold update, update_try. by rewrite Hlist.
  - intros videos e Hlist Hfilter. unfold update, update_try.
    by rewrite Hlist; simpl; rewrite Hfilter.
  - intros videos filteredVideos e Hlist Hfilter Hrec. unfold update, update_try.
    by rewrite Hlist; simpl; rewrite Hfilter; simpl; rewrite Hrec.
  - intros videos filteredVideos video Hlist Hfilter Hmode Hv Hnew.
    rewrite (update_reconcile_pass this _ _ _ _ Hlist Hfilter).
    unfold reconcile_pass. rewrite reconcile_unfold.
    assert (video ∈ filter (fun v => fileId this v ∉ dom existingFiles) filteredVideos)
      as Hin by by apply list_elem_of_filter.
    destruct (filter _ filteredVideos) as [|first rest]; [by apply elem_of_nil in Hin|].
    simpl. by rewrite (fetchContent_invalid this first Hmode).
Qed.

Lemma update_failure_is_empty_witness :
  let H := table_host (inl (Err "quotaExceeded")) in
  let this := a_shop "video" false no_filters in
  update this 0 prior1 = ∅.
Proof.
  intros H this.
  apply (proj1 (proj2 (@update_failure_is_empty H this 0 prior1))
           (Err "quotaExceeded")).
  reflexivity.
Defined.

(** ** The unit of the expiry window *)

Section Unit.

Context `{Host}.

(** [init] copies the expiry window and does not read it. *)
Lemma init_succeeds (credentials : gmap string string) (cfg : Config.t) :
  truthy_str (credentials !! "youtube_api_key") <> None ->
  truthy_str (Config.channelId cfg) <> None ->
  (forall p, truthy_str (Config.titleIncludes cfg) = Some p -> RegExp_ok p = true) ->
  exists this, init credentials cfg = inr this
               /\ Filters.dropAfter (Shop.filters this) = Config.dropAfter cfg.
Proof.
  intros Hkey Hchannel Hregexp. unfold init.
  destruct (truthy_str (credentials !! "youtube_api_key")); [|done].
  destruct (truthy_str (Config.channelId cfg)); [|done].
  destruct (truthy_str (Config.titleIncludes cfg)) as [p|]; simpl.
  - rewrite (Hregexp p eq_refl). simpl. by eexists.
  - by eexists.
Qed.

Variable this : Shop.t.
Variable dropAfter : string.
Hypothesis Hconfigured : Filters.dropAfter (Shop.filters this) = Some dropAfter.
Hypothesis Hnonempty : nonempty dropAfter = true.
Hypothesis Hunit : unit_ms (slice_last dropAfter) = None.

Lemma shouldDropVideo_invalid_unit (publishedAt : number) :
  shouldDropVideo this publishedAt
  = inl (Err ("Invalid dropAfter unit: " +:+ slice_last dropAfter)).
Proof.
  unfold shouldDropVideo. rewrite Hconfigured. simpl. rewrite Hnonempty.
  by rewrite parseDropAfter_unit_ms, Hunit.
Qed.

(** The verdict on a video: the error, when the video has a publish date
    and passes the checks before the expiry check; the verdict without an
    expiry window otherwise. *)
Lemma keeps_invalid_unit (video : Video.t) :
  keeps this video
  = match publishedAt_of video,
          keeps (with_filters (set_dropAfter None (Shop.filters this)) this) video
    with
    | Some _, inr true => inl (Err ("Invalid dropAfter unit: " +:+ slice_last dropAfter))
    | _, verdict => verdict
    end.
Proof.
  unfold keeps, publishedAt_of. simpl. rewrite Hconfigured. simpl.
  rewrite Hnonempty.
  destruct (truthy_str (to_option (Video.snippet video) ?. Snippet.publishedAt))
    as [p|]; simpl.
  - rewrite shouldDropVideo_invalid_unit. by repeat case_match.
  - by repeat case_match.
Qed.

Lemma applyFilters_no_date (videos : list Video.t) :
  (forall video, video ∈ videos -> publishedAt_of video = None) ->
  applyFilters this videos
  = applyFilters (with_filters (set_dropAfter None (Shop.filters this)) this) videos.
Proof.
  induction videos as [|video rest IH]; [done|]. intros Hnone.
  simpl. rewrite IH by (intros v Hv; apply Hnone; by right).
  by rewrite keeps_invalid_unit, (Hnone video) by by left.
Qed.

End Unit.

(** C5, amended.  With an expiry window that ends in a unit
    other than d, w, m and y, [init] raises nothing and keeps the window as
    it is; the error, which names the unit, is raised while filtering, on
    every video that has a publish date and passes the title, start-date and
    duration checks; a listing without publish dates is filtered as without
    an expiry window, with no error; and when the error is raised [update]
    does not fail: it answers with the empty change set. *)
Theorem invalid_unit_raised_while_filtering `{Host} (this : Shop.t) (dropAfter : string) :
  Filters.dropAfter (Shop.filters this) = Some dropAfter ->
  nonempty dropAfter = true ->
  unit_ms (slice_last dropAfter) = None ->
  let error := Err ("Invalid dropAfter unit: " +:+ slice_last dropAfter) in
  let without := with_filters (set_dropAfter None (Shop.filters this)) this in
  (forall credentials cfg,
      Config.dropAfter cfg = Some dropAfter ->
      truthy_str (credentials !! "youtube_api_key") <> None ->
      truthy_str (Config.channelId cfg) <> None ->
      (forall p, truthy_str (Config.titleIncludes cfg) = Some p -> RegExp_ok p = true) ->
      exists shop, init credentials cfg = inr shop
                   /\ Filters.dropAfter (Shop.filters shop) = Some dropAfter)
  /\ (forall video,
      keeps this video
      = match publishedAt_of video, keeps without video with
        | Some _, inr true => inl error
        | _, verdict => verdict
        end)
  /\ (forall videos,
      (forall video, video ∈ videos -> publishedAt_of video = None) ->
      applyFilters this videos = applyFilters without videos)
  /\ (forall lastUsed existingFiles videos,
      getAllVideoDetails (Shop.channelId this) = inr videos ->
      applyFilters this videos = inl error ->
      update this lastUsed existingFiles = ∅).
Proof.
  intros Hconfigured Hnonempty Hunit error without.
  split; [|split; [|split]].
  - intros credentials cfg Hcfg Hkey Hchannel Hregexp.
    destruct (init_succeeds credentials cfg Hkey Hchannel Hregexp) as (shop & Hinit & Hda).
    exists shop. by rewrite Hda, <- Hcfg.
  - intros video. by apply (keeps_invalid_unit this dropAfter).
  - intros videos. by apply (applyFilters_no_date this dropAfter).
  - intros lastUsed existingFiles videos Hlist Hfilter.
    unfold update, update_try. by rewrite Hlist; simpl; rewrite Hfilter.
Qed.

Lemma invalid_unit_raised_while_filtering_witness :
  let H := table_host (inr [video2]) in
  let this := a_shop "video" false
                (Filters.Build_t None None None (Some "5x") None) in
  keeps this video2 = inl (Err "Invalid dropAfter unit: x")
  /\ update this 0 prior1 = ∅.
Proof.
  intros H this.
  pose proof (@invalid_unit_raised_while_filtering H this "5x"
                eq_refl eq_refl eq_refl) as (_ & Hkeeps & _ & Hupdate).
  split.
  - rewrite (Hkeeps video2). reflexivity.
  - apply (Hupdate 0 prior1 [video2]); reflexivity.
Defined.

(** C5 as stated does not hold: with the expiry window 5x, [init] ends
    without an error; over a listing whose videos have no publish date
    [update] ends without an error too, and deletes; and over a listing with
    a dated video the error is raised while filtering and [update] answers
    with the empty change set. *)
Lemma invalid_unit_not_raised_by_init :
  let H := table_host (inr [video1]) in
  let H' := table_host (inr [video2]) in
  let this := a_shop "video" false
                (Filters.Build_t None None None (Some "5x") None) in
  unit_ms (slice_last "5x") = None
  /\ @init H credentials1 config_5x = inr this
  /\ @init H' credentials1 config_5x = inr this
  /\ @applyFilters H this [video1] = inr [video1]
  /\ @update H this 0 {[ "youtube-channel-UC123-v0-video" := 5 ]}
     = {[ "youtube-channel-UC123-v0-video" := delete_entry;
          "youtube-channel-UC123-v1-video"
            := add_entry (Some "https://www.youtube.com/watch?v=v1") ]}
  /\ @applyFilters H' this [video2] = inl (Err "Invalid dropAfter unit: x")
  /\ @update H' this 0 prior1 = ∅.
Proof. repeat split; vm_compute; reflexivity. Qed.

(** * Further properties of the class *)

(** ** Reading numbers *)

Lemma digit_digit_char (d : Z) : 0 <= d <= 9 -> digit (digit_char d) = Some d.
Proof.
  intros Hd.
  assert (d = 0 \/ d = 1 \/ d = 2 \/ d = 3 \/ d = 4 \/ d = 5 \/ d = 6
          \/ d = 7 \/ d = 8 \/ d = 9) as Hcases by lia.
  repeat (destruct Hcases as [-> | Hcases]; [reflexivity|]).
  by subst.
Qed.

Lemma is_digit_digit_char (d : Z) : 0 <= d <= 9 -> is_digit (digit_char d) = true.
Proof. intros Hd. unfold is_digit. by rewrite digit_digit_char. Qed.

Lemma append_assoc (a b c : string) : (a +:+ b) +:+ c = a +:+ (b +:+ c).
Proof.
  induction a as [|x a IH]; [done|].
  by rewrite !append_cons, IH.
Qed.

Lemma digits_digit_string (ds : list Z) (acc : option Z) (rest : string) :
  Forall (fun d => 0 <= d <= 9) ds ->
  digits acc (digit_string ds +:+ rest)
  = digits (match ds with
            | [] => acc
            | _ => Some (value_from (default 0 acc) ds)
            end) rest.
Proof.
  intros Hds. revert acc. induction Hds as [|d ds Hd Hds IH]; intros acc; [done|].
  cbn [digit_string]. rewrite append_cons. cbn [digits].
  rewrite (digit_digit_char d Hd), IH.
  by destruct ds.
Qed.

Lemma digits_stop (acc : option Z) (s : string) :
  starts_with_digit s = false -> digits acc s = acc.
Proof.
  destruct s as [|c r]; [done|]. simpl. unfold is_digit.
  by destruct (digit c).
Qed.

Lemma trim_start_digit (c : ascii) (s : string) :
  is_digit c = true -> trim_start (String c s) = String c s.
Proof. intros Hc. simpl. by rewrite (is_digit_not_white c Hc). Qed.

Lemma parseInt_unsigned (c : ascii) (s : string) :
  is_digit c = true ->
  parseInt (String c s)
  = match digits None (String c s) with
    | Some n => Num (1 * n)
    | None => NaN
    end.
Proof.
  intros Hc. unfold parseInt. rewrite trim_start_digit by done.
  revert Hc. by destruct c as [[] [] [] [] [] [] [] []].
Qed.

Lemma parseInt_minus (t : string) :
  parseInt (String "-" t)
  = match digits None t with Some n => Num (-1 * n) | None => NaN end.
Proof. reflexivity. Qed.

Lemma parseInt_plus (t : string) :
  parseInt (String "+" t)
  = match digits None t with Some n => Num (1 * n) | None => NaN end.
Proof. reflexivity. Qed.

Lemma parseInt_space (t : string) : parseInt (String " " t) = parseInt t.
Proof. reflexivity. Qed.

(** Reading back a number that is written out in decimal digits gives the
    number, whatever follows the digits as long as it is no digit; a minus
    sign in front gives the opposite, a plus sign changes nothing, and
    white space in front is skipped. *)
Lemma parseInt_digit_string (ds : list Z) (rest : string) :
  decimal ds ->
  starts_with_digit rest = false ->
  parseInt (digit_string ds +:+ rest) = Num (value ds)
  /\ parseInt (String "-" (digit_string ds +:+ rest)) = Num (- value ds)
  /\ parseInt (String "+" (digit_string ds +:+ rest)) = Num (value ds)
  /\ parseInt (String " " (digit_string ds +:+ rest)) = Num (value ds).
Proof.
  intros [Hne Hds] Hrest.
  assert (digits None (digit_string ds +:+ rest) = Some (value ds)) as Hdigits.
  { rewrite digits_digit_string by done. rewrite digits_stop by done.
    by destruct ds. }
  assert (parseInt (digit_string ds +:+ rest) = Num (value ds)) as Hplain.
  { destruct ds as [|d ds]; [done|].
    apply Forall_cons in Hds as [Hd Hds].
    cbn [digit_string] in *. rewrite append_cons in *.
    rewrite parseInt_unsigned by by apply is_digit_digit_char.
    rewrite Hdigits. f_equal. lia. }
  split; [done|]. split.
  { rewrite parseInt_minus, Hdigits. f_equal; lia. }
  split.
  { rewrite parseInt_plus, Hdigits. f_equal; lia. }
  by rewrite parseInt_space.
Qed.


(** ** Durations, component by component *)

Lemma span_digits_digit_string (ds : list Z) (rest : string) :
  Forall (fun d => 0 <= d <= 9) ds ->
  starts_with_digit rest = false ->
  span_digits (digit_string ds +:+ rest) = (digit_string ds, rest).
Proof.
  intros Hds Hrest. induction Hds as [|d ds Hd Hds IH].
  - destruct rest as [|c r]; [done|]. simpl in *. by rewrite Hrest.
  - cbn [digit_string]. rewrite append_cons. cbn [span_digits].
    by rewrite (is_digit_digit_char d Hd), IH.
Qed.

Lemma group_empty (X : ascii) : group X EmptyString = (None, EmptyString).
Proof. reflexivity. Qed.

(** A group takes the digits that are followed by its letter... *)
Lemma group_hit (X : ascii) (ds : list Z) (rest : string) :
  decimal ds -> is_digit X = false ->
  group X (component ds X +:+ rest)
  = (Some (digit_string ds +:+ String X EmptyString), rest).
Proof.
  intros [Hne Hds] HX. unfold group, component.
  destruct ds as [|d ds]; [done|].
  rewrite append_assoc, append_cons, append_nil.
  rewrite span_digits_digit_string by done.
  cbn [digit_string]. by rewrite Ascii.eqb_refl.
Qed.

(** ... and leaves the digits that are followed by another letter. *)
Lemma group_miss (X Y : ascii) (ds : list Z) (rest : string) :
  decimal ds -> is_digit Y = false -> X <> Y ->
  group X (component ds Y +:+ rest) = (None, component ds Y +:+ rest).
Proof.
  intros [Hne Hds] HY Hdiff. unfold group, component.
  destruct ds as [|d ds]; [done|].
  rewrite append_assoc, append_cons, append_nil.
  rewrite span_digits_digit_string by done.
  cbn [digit_string].
  destruct (Ascii.eqb Y X) eqn:Heq; [|done].
  apply Ascii.eqb_eq in Heq. congruence.
Qed.

Lemma parseInt_component (X : ascii) (ds : list Z) :
  decimal ds -> is_digit X = false ->
  parseInt (digit_string ds +:+ String X EmptyString) = Num (value ds).
Proof.
  intros Hds HX. by apply parseInt_digit_string.
Qed.

Lemma component_nil (X : ascii) : component [] X = EmptyString.
Proof. reflexivity. Qed.

Lemma append_nil_r (s : string) : s +:+ EmptyString = s.
Proof. induction s as [|c s IH]; [done|]. by rewrite append_cons, IH. Qed.

Lemma value_nil : value [] = 0.
Proof. reflexivity. Qed.

(** X15.  A duration written as PT followed by hours, minutes and seconds,
    each a decimal number with its letter and each possibly left out, is
    read as 3600 times the hours plus 60 times the minutes plus the
    seconds, a component left out counting for zero, as long as this total
    is below 2^53, the range in which the numbers of the class are exact. *)
Theorem parseDuration_components (hs ms ss : list Z) :
  Forall (fun d => 0 <= d <= 9) hs ->
  Forall (fun d => 0 <= d <= 9) ms ->
  Forall (fun d => 0 <= d <= 9) ss ->
  3600 * value hs + 60 * value ms + value ss < 2 ^ 53 ->
  parseDuration ("PT" +:+ component hs "H" +:+ component ms "M" +:+ component ss "S")
  = Num (3600 * value hs + 60 * value ms + value ss).
Proof.
  intros Hhs Hms Hss _.
  unfold parseDuration, match_duration.
  change (after_PT ("PT" +:+ ?t)) with (Some t).
  assert (forall ds, Forall (fun d => 0 <= d <= 9) ds -> ds = [] \/ decimal ds) as Hcase.
  { intros [|d ds] Hds; [by left | by right]. }
  rewrite <- (append_nil_r (component ss "S")).
  destruct (Hcase hs Hhs) as [-> | Hh]; destruct (Hcase ms Hms) as [-> | Hm];
    destruct (Hcase ss Hss) as [-> | Hs];
    rewrite ?component_nil, ?append_nil, ?value_nil.
  - by rewrite !group_empty.
  - rewrite (group_miss "H" "S"), (group_miss "M" "S"), group_hit by done.
    rewrite parseInt_component by done. simpl. f_equal; lia.
  - rewrite (group_miss "H" "M"), group_hit, group_empty by done.
    rewrite parseInt_component by done. simpl. f_equal; lia.
  - rewrite (group_miss "H" "M"), !group_hit by done.
    rewrite !parseInt_component by done. simpl. f_equal; lia.
  - rewrite group_hit, !group_empty by done.
    rewrite parseInt_component by done. simpl. f_equal; lia.
  - rewrite group_hit, (group_miss "M" "S"), group_hit by done.
    rewrite !parseInt_component by done. simpl. f_equal; lia.
  - rewrite !group_hit, group_empty by done.
    rewrite !parseInt_component by done. simpl. f_equal; lia.
  - rewrite !group_hit by done.
    rewrite !parseInt_component by done. simpl. f_equal; lia.
Qed.

Lemma parseDuration_components_witness :
  parseDuration "PT1H2M3S" = Num (3600 * 1 + 60 * 2 + 3).
Proof.
  apply (parseDuration_components [1] [2] [3]);
    [repeat constructor; lia | repeat constructor; lia | repeat constructor; lia
    | reflexivity].
Defined.

Lemma has_PT_cons_other (c : ascii) (r : string) :
  Ascii.eqb c "P" = false -> has_PT (String c r) = has_PT r.
Proof. by destruct c as [[] [] [] [] [] [] [] []]. Qed.

Lemma has_PT_P_cons (c : ascii) (r : string) :
  Ascii.eqb c "T" = false -> has_PT (String "P" (String c r)) = has_PT (String c r).
Proof. by destruct c as [[] [] [] [] [] [] [] []]. Qed.

Lemma has_PT_no_P (s : string) : has_P s = false -> has_PT s = false.
Proof.
  induction s as [|c r IH]; [done|].
  simpl has_P. intros [Hc Hr]%orb_false_iff.
  rewrite has_PT_cons_other by done. by apply IH.
Qed.

Lemma digit_char_letters (d : Z) :
  0 <= d <= 9 ->
  Ascii.eqb (digit_char d) "P" = false /\ Ascii.eqb (digit_char d) "T" = false.
Proof.
  intros Hd.
  assert (d = 0 \/ d = 1 \/ d = 2 \/ d = 3 \/ d = 4 \/ d = 5 \/ d = 6
          \/ d = 7 \/ d = 8 \/ d = 9) as Hcases by lia.
  repeat (destruct Hcases as [-> | Hcases]; [by split|]).
  by subst.
Qed.

Lemma has_PT_digit_string (ds : list Z) (rest : string) :
  Forall (fun d => 0 <= d <= 9) ds ->
  has_PT (digit_string ds +:+ rest) = has_PT rest.
Proof.
  intros Hds. induction Hds as [|d ds Hd Hds IH]; [done|].
  cbn [digit_string]. rewrite append_cons.
  rewrite has_PT_cons_other by by apply digit_char_letters.
  done.
Qed.

(** X16.  A duration with a day part, P then the days then DT then the
    time, has no P directly followed by T and is read as 0 seconds,
    whatever its hours, minutes and seconds are. *)
Theorem parseDuration_days (ds : list Z) (rest : string) :
  Forall (fun d => 0 <= d <= 9) ds ->
  has_P rest = false ->
  parseDuration ("P" +:+ digit_string ds +:+ "DT" +:+ rest) = Num 0.
Proof.
  intros Hds Hrest.
  unfold parseDuration, match_duration. rewrite after_PT_None; [done|].
  change ("P" +:+ ?t) with (String "P" t).
  change ("DT" +:+ rest) with (String "D" (String "T" rest)).
  assert (has_PT (digit_string ds +:+ String "D" (String "T" rest)) = false) as Htail.
  { rewrite has_PT_digit_string by done.
    rewrite !has_PT_cons_other by done. by apply has_PT_no_P. }
  destruct Hds as [|d ds Hd Hds].
  - done.
  - cbn [digit_string] in *. rewrite append_cons in *.
    rewrite has_PT_P_cons by by apply digit_char_letters. done.
Qed.

Lemma parseDuration_days_witness : parseDuration "P1DT2H30M" = Num 0.
Proof.
  apply (parseDuration_days [1] "2H30M"); [repeat constructor; lia | reflexivity].
Defined.

(** ** The expiry window, from its text *)

Lemma slice_last_snoc (t : string) (u : ascii) :
  slice_last (t +:+ String u EmptyString) = String u EmptyString.
Proof.
  induction t as [|c t IH]; [done|].
  rewrite append_cons. cbn [slice_last]. rewrite IH.
  destruct t; reflexivity.
Qed.

Lemma slice_init_snoc (t : string) (u : ascii) :
  slice_init (t +:+ String u EmptyString) = t.
Proof.
  induction t as [|c t IH]; [done|].
  rewrite append_cons. cbn [slice_init]. rewrite IH.
  destruct t; reflexivity.
Qed.

(** X17.  An expiry window written as a decimal number and one of the
    letters d, w, m, y stands for that number of milliseconds times
    86400000, 604800000, 2592000000 or 31536000000, as long as the product
    is below 2^53, the range in which the numbers of the class are exact;
    with any other last character it is an error that names the
    character. *)
Theorem parseDropAfter_digits (ds : list Z) (u : ascii) :
  decimal ds ->
  (forall k, unit_ms (String u EmptyString) = Some k -> value ds * k < 2 ^ 53) ->
  parseDropAfter (digit_string ds +:+ String u EmptyString)
  = match unit_ms (String u EmptyString) with
    | Some k => inr (Num (value ds * k))
    | None => inl (Err ("Invalid dropAfter unit: " +:+ String u EmptyString))
    end
  /\ unit_ms "d" = Some 86400000 /\ unit_ms "w" = Some 604800000
  /\ unit_ms "m" = Some 2592000000 /\ unit_ms "y" = Some 31536000000.
Proof.
  intros Hds _. split; [|done].
  rewrite parseDropAfter_unit_ms, slice_last_snoc, slice_init_snoc.
  destruct (unit_ms (String u EmptyString)) as [k|]; [|done].
  rewrite <- (append_nil_r (digit_string ds)).
  by rewrite (proj1 (parseInt_digit_string ds EmptyString Hds eq_refl)).
Qed.

Lemma parseDropAfter_digits_witness :
  parseDropAfter "30d" = inr (Num (30 * 86400000)).
Proof.
  assert (decimal [3; 0]) as Hdec.
  { split; [discriminate|]. repeat constructor; lia. }
  apply (proj1 (parseDropAfter_digits [3; 0] "d" Hdec
                  ltac:(intros k Hk; injection Hk as <-; reflexivity))).
Defined.

Section Expiry.

Context `{Host}.
Variable this : Shop.t.

Lemma shouldDropVideo_cases (publishedAt : number) :
  (truthy_str (Filters.dropAfter (Shop.filters this)) = None
   /\ shouldDropVideo this publishedAt = inr false)
  \/ (exists dropAfter,
        truthy_str (Filters.dropAfter (Shop.filters this)) = Some dropAfter
        /\ shouldDropVideo this publishedAt
           = match unit_ms (slice_last dropAfter) with
             | Some k =>
                 inr (Number.gt (Number.sub (Num now) publishedAt)
                        (Number.mul (parseInt (slice_init dropAfter)) (Num k)))
             | None =>
                 inl (Err ("Invalid dropAfter unit: " +:+ slice_last dropAfter))
             end).
Proof.
  unfold shouldDropVideo.
  destruct (truthy_str (Filters.dropAfter (Shop.filters this))) as [dropAfter|];
    [right | by left].
  exists dropAfter. split; [done|].
  rewrite parseDropAfter_unit_ms. by destruct (unit_ms (slice_last dropAfter)).
Qed.

End Expiry.

(** X12.  Expiry follows age: a video that is expired stays expired for
    every earlier publish instant, and a video that is not expired is not
    expired for any later one. *)
Theorem shouldDropVideo_monotone `{Host} (this : Shop.t) (p p' : Z) :
  p' <= p ->
  (shouldDropVideo this (Num p) = inr true -> shouldDropVideo this (Num p') = inr true)
  /\ (shouldDropVideo this (Num p') = inr false -> shouldDropVideo this (Num p) = inr false).
Proof.
  intros Hle.
  destruct (shouldDropVideo_cases this (Num p)) as [[_ Hp] | (da & Hda & Hp)];
    destruct (shouldDropVideo_cases this (Num p')) as [[Hnone Hp'] | (da' & Hda' & Hp')];
    rewrite Hp, Hp'; try done; try congruence.
  assert (da' = da) as -> by congruence.
  destruct (unit_ms (slice_last da)) as [k|]; [|done].
  destruct (parseInt (slice_init da)) as [|v]; [done|]. simpl.
  unfold Number.gt, Number.lt.
  split; intros [= Hb]; f_equal.
  - apply Z.ltb_lt in Hb. apply Z.ltb_lt. lia.
  - apply Z.ltb_ge in Hb. apply Z.ltb_ge. lia.
Qed.

Lemma shouldDropVideo_monotone_witness :
  let H := table_host (inr []) in
  let this := a_shop "video" false
                (Filters.Build_t None None None (Some "1y") None) in
  shouldDropVideo this (Num 0) = inr true.
Proof.
  intros H this.
  apply (proj1 (@shouldDropVideo_monotone H this 1000 0 ltac:(lia))).
  reflexivity.
Defined.

(** X13.  The expiry check is silently off when the window has a unit but
    no number in front of it, and for a publish date that cannot be parsed:
    with a known unit, no video is expired in the first case and a video
    with an invalid date is never expired. *)
Theorem shouldDropVideo_never `{Host} (this : Shop.t) (dropAfter : string) (k : Z) :
  Filters.dropAfter (Shop.filters this) = Some dropAfter ->
  unit_ms (slice_last dropAfter) = Some k ->
  shouldDropVideo this NaN = inr false
  /\ (parseInt (slice_init dropAfter) = NaN ->
      forall publishedAt, shouldDropVideo this publishedAt = inr false).
Proof.
  intros Hda Hk.
  assert (truthy_str (Filters.dropAfter (Shop.filters this)) = Some dropAfter) as Ht.
  { rewrite Hda. by eapply unit_ms_nonempty. }
  split.
  - destruct (shouldDropVideo_cases this NaN) as [[_ ->] | (da & Hda' & ->)]; [done|].
    assert (da = dropAfter) as -> by congruence. rewrite Hk. simpl.
    by destruct (parseInt (slice_init dropAfter)).
  - intros Hnan publishedAt.
    destruct (shouldDropVideo_cases this publishedAt) as [[_ ->] | (da & Hda' & ->)];
      [done|].
    assert (da = dropAfter) as -> by congruence. rewrite Hk, Hnan. simpl.
    by destruct publishedAt.
Qed.

Lemma shouldDropVideo_never_witness :
  let H := table_host (inr []) in
  let this := a_shop "video" false
                (Filters.Build_t None None None (Some "y") None) in
  shouldDropVideo this (Num 0) = inr false.
Proof.
  intros H this.
  apply (proj2 (@shouldDropVideo_never H this "y" (365 * 86400000) eq_refl eq_refl)).
  reflexivity.
Defined.

(** ** The filter engine, video by video *)

Section Filtering.

Context `{Host}.
Variable this : Shop.t.

Lemma applyFilters_cons (video : Video.t) (rest : list Video.t) :
  applyFilters this (video :: rest)
  = match keeps this video with
    | inl e => inl e
    | inr keep =>
        match applyFilters this rest with
        | inl e => inl e
        | inr filtered => inr (if keep then video :: filtered else filtered)
        end
    end.
Proof.
  cbn [applyFilters]. destruct (keeps this video) as [e|keep]; [done|]. simpl.
  by destruct (applyFilters this rest).
Qed.

Lemma applyFilters_kept (videos filtered : list Video.t) :
  applyFilters this videos = inr filtered -> filtered = kept this videos.
Proof.
  revert filtered. induction videos as [|video rest IH]; intros filtered.
  - by intros [= <-].
  - rewrite applyFilters_cons.
    destruct (keeps this video) as [e|keep] eqn:Hk; [done|].
    destruct (applyFilters this rest) as [e|kept_rest]; [done|].
    intros [= <-]. unfold kept. rewrite (IH kept_rest eq_refl).
    destruct keep.
    + by rewrite filter_cons_True.
    + rewrite filter_cons_False; [done|]. by rewrite Hk.
Qed.

Lemma applyFilters_total (videos : list Video.t) :
  (forall video, video ∈ videos -> exists keep, keeps this video = inr keep) ->
  applyFilters this videos = inr (kept this videos).
Proof.
  intros Hall. induction videos as [|video rest IH]; [done|].
  rewrite applyFilters_cons.
  destruct (Hall video) as [keep Hk]; [by left|].
  rewrite Hk, IH by (intros v Hv; apply Hall; by right).
  unfold kept. destruct keep.
  - by rewrite filter_cons_True.
  - rewrite filter_cons_False; [done|]. by rewrite Hk.
Qed.

Lemma applyFilters_error (videos : list Video.t) (e : Error) :
  applyFilters this videos = inl e <->
  exists before video after,
    videos = before ++ video :: after
    /\ keeps this video = inl e
    /\ forall earlier, earlier ∈ before -> exists keep, keeps this earlier = inr keep.
Proof.
  split.
  - induction videos as [|video rest IH]; [done|].
    rewrite applyFilters_cons.
    destruct (keeps this video) as [e'|keep] eqn:Hk.
    + intros [= ->]. exists [], video, rest. repeat split; [done|].
      by intros earlier ?%elem_of_nil.
    + destruct (applyFilters this rest) as [e'|kept_rest]; [|done].
      intros [= ->]. destruct (IH eq_refl) as (before & v & after & -> & Hv & Hbefore).
      exists (video :: before), v, after. repeat split; [done|].
      intros earlier [->|Hin]%elem_of_cons; [by eexists | by apply Hbefore].
  - intros (before & video & after & -> & Hv & Hbefore).
    induction before as [|first before IH]; simpl.
    + by rewrite Hv.
    + destruct (Hbefore first) as [keep ->]; [by left|]. simpl.
      rewrite IH; [done|]. intros earlier Hin. apply Hbefore. by right.
Qed.

(** The only error the verdict on a video can end in is the one of the
    expiry window. *)
Lemma shouldDropVideo_ok (publishedAt : number) :
  dropAfter_ok this -> exists drop, shouldDropVideo this publishedAt = inr drop.
Proof.
  unfold dropAfter_ok. intros Hok.
  destruct (shouldDropVideo_cases this publishedAt) as [[_ ->] | (da & Hda & ->)];
    [by eexists|].
  rewrite Hda in Hok. destruct Hok as [k ->]. by eexists.
Qed.

Lemma keeps_ok (video : Video.t) :
  dropAfter_ok this -> exists keep, keeps this video = inr keep.
Proof.
  intros Hok. pose proof (fun p => shouldDropVideo_ok p Hok) as Hdrop. clear Hok.
  unfold keeps.
  repeat (case_match; try by eexists).
  all: match goal with
       | |- context [shouldDropVideo this ?p] => destruct (Hdrop p) as [drop ->]
       end.
  all: by eexists.
Qed.

End Filtering.

(** X5.  When the filters end without an error, the filtered videos are
    the videos whose verdict is true, in the order of the listing: none is
    added, repeated or moved. *)
Theorem applyFilters_is_filter `{Host} (this : Shop.t) (videos filtered : list Video.t) :
  applyFilters this videos = inr filtered ->
  filtered = kept this videos
  /\ filtered `sublist_of` videos
  /\ (forall video, video ∈ filtered <-> video ∈ videos /\ keeps this video = inr true).
Proof.
  intros Hf. pose proof (applyFilters_kept this _ _ Hf) as ->.
  split; [done|]. split.
  - apply sublist_filter.
  - intros video. unfold kept. rewrite list_elem_of_filter. tauto.
Qed.

Lemma applyFilters_is_filter_witness :
  let H := table_host (inr []) in
  let this := a_shop "video" false
                (Filters.Build_t None (Some (Num 600)) None None None) in
  [video2] = kept this [video1; video2].
Proof.
  intros H this.
  apply (proj1 (@applyFilters_is_filter H this [video1; video2] [video2] eq_refl)).
Defined.

(** X6.  The filters end in an error exactly when the verdict on some
    video throws and the verdicts on all videos before it do not; the error
    is the one of that video, and the videos kept so far are lost. *)
Theorem applyFilters_first_error `{Host} (this : Shop.t) (videos : list Video.t)
    (e : Error) :
  applyFilters this videos = inl e <->
  exists before video after,
    videos = before ++ video :: after
    /\ keeps this video = inl e
    /\ forall earlier, earlier ∈ before -> exists keep, keeps this earlier = inr keep.
Proof. apply applyFilters_error. Qed.

(** X7.  With an expiry window that is missing, empty or in one of the
    four units, no verdict throws: the filters always end with the videos
    whose verdict is true, and [update] is the reconciliation of these
    videos whenever the listing answers. *)
Theorem applyFilters_never_fails `{Host} (this : Shop.t) :
  dropAfter_ok this ->
  (forall video, exists keep, keeps this video = inr keep)
  /\ (forall videos, applyFilters this videos = inr (kept this videos))
  /\ (forall lastUsed existingFiles videos,
      getAllVideoDetails (Shop.channelId this) = inr videos ->
      update this lastUsed existingFiles
      = reconcile_pass this (kept this videos) existingFiles).
Proof.
  intros Hok.
  assert (forall videos, applyFilters this videos = inr (kept this videos)) as Hf.
  { intros videos. apply applyFilters_total. intros video _. by apply keeps_ok. }
  split; [intros video; by apply keeps_ok|]. split; [done|].
  intros lastUsed existingFiles videos Hlist.
  by apply (update_reconcile_pass this _ _ videos).
Qed.

Lemma applyFilters_never_fails_witness :
  let H := table_host (inr []) in
  let this := a_shop "video" false
                (Filters.Build_t None None None (Some "2w") None) in
  applyFilters this [video1; video2] = inr (kept this [video1; video2]).
Proof.
  intros H this.
  assert (dropAfter_ok this) as Hok by (by eexists).
  apply (proj1 (proj2 (@applyFilters_never_fails H this Hok))).
Defined.

Lemma applyFilters_first_error_witness :
  let H := table_host (inr []) in
  let this := a_shop "video" false
                (Filters.Build_t None None None (Some "5x") None) in
  applyFilters this [video1; video2] = inl (Err "Invalid dropAfter unit: x").
Proof.
  intros H this.
  apply (proj2 (@applyFilters_first_error H this [video1; video2]
                  (Err "Invalid dropAfter unit: x"))).
  exists [video1], video2, []. split; [reflexivity|]. split; [reflexivity|].
  intros earlier Hin. apply list_elem_of_singleton in Hin. subst earlier.
  exists true. reflexivity.
Defined.

Section Checks.

Context `{Host}.
Variable this : Shop.t.

Lemma keeps_duration_of (video : Video.t) :
  forall n, duration_of video = Num n ->
  (forall max, Filters.durationLessThan (Shop.filters this) = Some (Num max) ->
               max <> 0 -> max < n -> keeps this video = inr false)
  /\ (forall min, Filters.durationMoreThan (Shop.filters this) = Some (Num min) ->
                  min <> 0 -> n < min -> keeps this video = inr false).
Proof.
  unfold duration_of. intros n Hn. split.
  - intros max Hmax Hnz Hlt. unfold keeps. rewrite Hmax, Hn.
    assert (Number.truthy (Num max) && Number.gt (Num n) (Num max) = true) as ->.
    { simpl. apply andb_true_iff. split.
      - apply negb_true_iff, Z.eqb_neq. done.
      - by apply Z.ltb_lt. }
    by repeat case_match.
  - intros min Hmin Hnz Hlt. unfold keeps. rewrite Hmin, Hn.
    assert (Number.truthy (Num min) && Number.lt (Num n) (Num min) = true) as ->.
    { simpl. apply andb_true_iff. split.
      - apply negb_true_iff, Z.eqb_neq. done.
      - by apply Z.ltb_lt. }
    by repeat case_match.
Qed.

Lemma duration_of_missing (video : Video.t) :
  truthy_str (Video.contentDetails video ?. ContentDetails.duration) = None ->
  duration_of video = Num 0.
Proof. unfold duration_of. by intros ->. Qed.

Lemma keeps_no_filters (video : Video.t) :
  Filters.titleIncludes (Shop.filters this) = None ->
  (forall m, Filters.durationMoreThan (Shop.filters this) = Some m ->
             Number.truthy m = false) ->
  (forall m, Filters.durationLessThan (Shop.filters this) = Some m ->
             Number.truthy m = false) ->
  truthy_str (Filters.startDate (Shop.filters this)) = None ->
  truthy_str (Filters.dropAfter (Shop.filters this)) = None ->
  keeps this video = inr true.
Proof.
  intros Htitle Hmore Hless Hstart Hdrop. unfold keeps.
  rewrite Htitle, Hstart, Hdrop.
  destruct (Filters.durationMoreThan (Shop.filters this)) as [m|];
    [rewrite (Hmore m eq_refl)|];
    (destruct (Filters.durationLessThan (Shop.filters this)) as [m'|];
     [rewrite (Hless m' eq_refl)|]); done.
Qed.

Lemma keeps_undated (video : Video.t) :
  publishedAt_of video = None ->
  keeps this video
  = keeps (with_filters
             (set_startDate None (set_dropAfter None (Shop.filters this))) this)
      video.
Proof.
  unfold publishedAt_of, keeps. intros Hnone. simpl. rewrite Hnone. simpl.
  by repeat case_match.
Qed.

Lemma keeps_invalid_startDate (video : Video.t) (startDate : string) :
  Filters.startDate (Shop.filters this) = Some startDate ->
  Date_parse startDate = NaN ->
  keeps this video
  = keeps (with_filters (set_startDate None (Shop.filters this)) this) video.
Proof.
  intros Hstart Hnan. unfold keeps. simpl. rewrite Hstart.
  assert (match truthy_str (Some startDate),
                Date_parse <$> truthy_str
                  (to_option (Video.snippet video) ?. Snippet.publishedAt) with
          | Some s, Some p => Number.lt p (Date_parse s)
          | _, _ => false
          end = false) as ->.
  { destruct (truthy_str (Some startDate)) as [s|] eqn:Ht; [|done].
    assert (s = startDate) as -> by (destruct startDate; by simplify_eq/=).
    rewrite Hnan. by destruct (Date_parse <$> _) as [[|p]|]. }
  done.
Qed.

Lemma keeps_before_startDate (video : Video.t) (startDate publishedAt : string)
    (floor published : Z) :
  Filters.startDate (Shop.filters this) = Some startDate ->
  nonempty startDate = true ->
  Date_parse startDate = Num floor ->
  publishedAt_of video = Some publishedAt ->
  Date_parse publishedAt = Num published ->
  published < floor ->
  keeps this video = inr false.
Proof.
  unfold publishedAt_of. intros Hstart Hne Hfloor Hpub Hp Hlt. unfold keeps.
  rewrite Hstart, Hpub.
  assert (truthy_str (Some startDate) = Some startDate) as ->
    by (simpl; by rewrite Hne).
  simpl. rewrite Hp, Hfloor. simpl.
  assert ((published <? floor) = true) as -> by by apply Z.ltb_lt.
  by repeat case_match.
Qed.

End Checks.

(** X8.  With no title pattern, no start date, no expiry window and no
    duration bound other than 0 or [NaN], every video is kept: the filtered
    videos are the listing. *)
Theorem applyFilters_no_filters `{Host} (this : Shop.t) (videos : list Video.t) :
  Filters.titleIncludes (Shop.filters this) = None ->
  (forall m, Filters.durationMoreThan (Shop.filters this) = Some m ->
             Number.truthy m = false) ->
  (forall m, Filters.durationLessThan (Shop.filters this) = Some m ->
             Number.truthy m = false) ->
  truthy_str (Filters.startDate (Shop.filters this)) = None ->
  truthy_str (Filters.dropAfter (Shop.filters this)) = None ->
  applyFilters this videos = inr videos.
Proof.
  intros Htitle Hmore Hless Hstart Hdrop.
  induction videos as [|video rest IH]; [done|].
  rewrite applyFilters_cons, IH.
  by rewrite (keeps_no_filters this video Htitle Hmore Hless Hstart Hdrop).
Qed.

Lemma applyFilters_no_filters_witness :
  let H := table_host (inr []) in
  let this := a_shop "video" false
                (Filters.Build_t None (Some NaN) (Some (Num 0)) (Some "") None) in
  applyFilters this [video1; video2] = inr [video1; video2].
Proof.
  intros H this.
  apply (@applyFilters_no_filters H this [video1; video2]); try reflexivity.
  - intros m Hm. injection Hm as <-. reflexivity.
  - intros m Hm. injection Hm as <-. reflexivity.
Defined.

(** X9.  A video longer than a configured maximum other than 0, or shorter
    than a configured minimum other than 0, is excluded whatever the other
    filters and the other properties of the video are; a video without a
    duration counts as 0 seconds long. *)
Theorem keeps_duration_bounds `{Host} (this : Shop.t) (video : Video.t) (n : Z) :
  duration_of video = Num n ->
  (forall max, Filters.durationLessThan (Shop.filters this) = Some (Num max) ->
               max <> 0 -> max < n -> keeps this video = inr false)
  /\ (forall min, Filters.durationMoreThan (Shop.filters this) = Some (Num min) ->
                  min <> 0 -> n < min -> keeps this video = inr false)
  /\ (truthy_str (Video.contentDetails video ?. ContentDetails.duration) = None ->
      n = 0).
Proof.
  intros Hn. destruct (keeps_duration_of this video n Hn) as [Hmax Hmin].
  split; [done|]. split; [done|].
  intros Hmissing. rewrite (duration_of_missing video Hmissing) in Hn.
  by injection Hn.
Qed.

Lemma keeps_duration_bounds_witness :
  let H := table_host (inr []) in
  let this := a_shop "video" false
                (Filters.Build_t (Some "Second") None (Some (Num 600)) None None) in
  keeps this video2 = inr false.
Proof.
  intros H this.
  apply (proj1 (@keeps_duration_bounds H this video2 3723 eq_refl) 600);
    [reflexivity | lia | lia].
Defined.

(** X10.  A start date that cannot be parsed is no constraint: the verdict
    on every video is the one without a start date.  With a start date that
    can be parsed, a video published before it is excluded. *)
Theorem keeps_startDate `{Host} (this : Shop.t) (startDate : string) :
  Filters.startDate (Shop.filters this) = Some startDate ->
  (Date_parse startDate = NaN ->
   forall video,
     keeps this video
     = keeps (with_filters (set_startDate None (Shop.filters this)) this) video)
  /\ (forall video publishedAt floor published,
      nonempty startDate = true ->
      Date_parse startDate = Num floor ->
      publishedAt_of video = Some publishedAt ->
      Date_parse publishedAt = Num published ->
      published < floor ->
      keeps this video = inr false).
Proof.
  intros Hstart. split.
  - intros Hnan video. by apply (keeps_invalid_startDate this video startDate).
  - intros video publishedAt floor published Hne Hfloor Hpub Hp Hlt.
    by apply (keeps_before_startDate this video startDate publishedAt floor published).
Qed.

Lemma keeps_startDate_witness :
  let H := table_host (inr []) in
  let this := a_shop "video" false
                (Filters.Build_t None None None None (Some "1st of May")) in
  keeps this video2
  = keeps (with_filters (set_startDate None (Shop.filters this)) this) video2.
Proof.
  intros H this.
  apply (proj1 (@keeps_startDate H this "1st of May" eq_refl)).
  reflexivity.
Defined.

(** X11.  A video without a publish date is not checked against the start
    date and never expires: its verdict is the one without a start date and
    without an expiry window, and it is never an error. *)
Theorem keeps_undated_video `{Host} (this : Shop.t) (video : Video.t) :
  publishedAt_of video = None ->
  keeps this video
  = keeps (with_filters
             (set_startDate None (set_dropAfter None (Shop.filters this))) this)
      video
  /\ exists keep, keeps this video = inr keep.
Proof.
  intros Hnone. split; [by apply keeps_undated|].
  rewrite (keeps_undated this video Hnone).
  by apply keeps_ok.
Qed.

Lemma keeps_undated_video_witness :
  let H := table_host (inr []) in
  let this := a_shop "video" false
                (Filters.Build_t None None None (Some "5x") (Some "2023-01-01")) in
  exists keep, keeps this video1 = inr keep.
Proof.
  intros H this.
  apply (proj2 (@keeps_undated_video H this video1 eq_refl)).
Defined.

(** ** Initialisation *)

Section Init.

Context `{Host}.

Lemma init_cases (credentials : gmap string string) (cfg : Config.t) :
  init credentials cfg
  = match truthy_str (credentials !! "youtube_api_key"),
          truthy_str (Config.channelId cfg),
          truthy_str (Config.titleIncludes cfg) with
    | None, _, _ => inl (Err "YouTube API key is required.")
    | Some _, None, _ => inl (Err "channelId is required in config.")
    | Some _, Some channelId, pattern =>
        if match pattern with Some p => RegExp_ok p | None => true end
        then
          inr {|
            Shop.channelId := channelId;
            Shop.mode := default "metadata" (truthy_str (Config.mode cfg));
            Shop.noDelete := bool_decide (Config.noDelete cfg = Some true);
            Shop.includeHeader := negb (bool_decide (Config.includeHeader cfg = Some false));
            Shop.filters := {|
              Filters.titleIncludes := pattern;
              Filters.durationMoreThan :=
                match Config.durationMoreThan cfg with
                | Some (JStr s) => if nonempty s then Some (parseInt s) else None
                | Some (JNum n) => if n =? 0 then None else Some (Num n)
                | None => None
                end;
              Filters.durationLessThan :=
                match Config.durationLessThan cfg with
                | Some (JStr s) => if nonempty s then Some (parseInt s) else None
                | Some (JNum n) => if n =? 0 then None else Some (Num n)
                | None => None
                end;
              Filters.dropAfter := Config.dropAfter cfg;
              Filters.startDate := Config.startDate cfg
            |}
          |}
        else inl (Err "Invalid regular expression")
    end.
Proof.
  unfold init.
  destruct (truthy_str (credentials !! "youtube_api_key")); [|done].
  destruct (truthy_str (Config.channelId cfg)); [|done].
  destruct (truthy_str (Config.titleIncludes cfg)) as [p|]; simpl.
  - destruct (RegExp_ok p); [|done]. simpl.
    by destruct (Config.noDelete cfg) as [[]|], (Config.includeHeader cfg) as [[]|].
  - by destruct (Config.noDelete cfg) as [[]|], (Config.includeHeader cfg) as [[]|].
Qed.

End Init.

(** X1.  [init] checks the API key first and the channel id second: without
    a key, or with an empty one, it throws the error about the key whatever
    the configuration is; with a key and without a channel id, or with an
    empty one, it throws the error about the channel id. *)
Theorem init_errors `{Host} (credentials : gmap string string) (cfg : Config.t) :
  (truthy_str (credentials !! "youtube_api_key") = None ->
   init credentials cfg = inl (Err "YouTube API key is required."))
  /\ (truthy_str (credentials !! "youtube_api_key") <> None ->
      truthy_str (Config.channelId cfg) = None ->
      init credentials cfg = inl (Err "channelId is required in config.")).
Proof.
  rewrite init_cases. split.
  - by intros ->.
  - intros Hkey ->. by destruct (truthy_str (credentials !! "youtube_api_key")).
Qed.

Lemma init_errors_witness :
  let H := table_host (inr []) in
  init ∅ config_5x = inl (Err "YouTube API key is required.")
  /\ init {[ "youtube_api_key" := "" ]} config_5x
     = inl (Err "YouTube API key is required.").
Proof.
  intros H. split.
  - apply (proj1 (@init_errors H ∅ config_5x)). reflexivity.
  - apply (proj1 (@init_errors H {[ "youtube_api_key" := "" ]} config_5x)).
    reflexivity.
Defined.

(** X2.  When [init] succeeds the shop has the configured channel id; the
    mode is metadata unless a mode that is not empty is configured, and any
    such mode is accepted; deletions are allowed unless noDelete is true;
    the transcript header is included unless includeHeader is false; the
    start date and the expiry window are taken over as they are. *)
Theorem init_defaults `{Host} (credentials : gmap string string) (cfg : Config.t)
    (this : Shop.t) :
  init credentials cfg = inr this ->
  truthy_str (Config.channelId cfg) = Some (Shop.channelId this)
  /\ Shop.mode this = default "metadata" (truthy_str (Config.mode cfg))
  /\ (Shop.noDelete this = true <-> Config.noDelete cfg = Some true)
  /\ (Shop.includeHeader this = false <-> Config.includeHeader cfg = Some false)
  /\ Filters.startDate (Shop.filters this) = Config.startDate cfg
  /\ Filters.dropAfter (Shop.filters this) = Config.dropAfter cfg
  /\ Filters.titleIncludes (Shop.filters this) = truthy_str (Config.titleIncludes cfg).
Proof.
  rewrite init_cases.
  destruct (truthy_str (credentials !! "youtube_api_key")); [|done].
  destruct (truthy_str (Config.channelId cfg)) as [c|]; [|done].
  destruct (match truthy_str (Config.titleIncludes cfg) with
            | Some p => RegExp_ok p
            | None => true
            end); [|done].
  intros [= <-]. simpl.
  split; [done|]. split; [done|].
  split; [apply bool_decide_eq_true|].
  split; [rewrite negb_false_iff; apply bool_decide_eq_true|].
  done.
Qed.

Lemma init_defaults_witness :
  let H := table_host (inr []) in
  let cfg := Config.Build_t (Some "UC123") None None None None None None None None in
  exists this, init credentials1 cfg = inr this /\ Shop.mode this = "metadata".
Proof.
  intros H cfg.
  exists (a_shop "metadata" false no_filters). split; [reflexivity|].
  apply (proj1 (proj2 (@init_defaults H credentials1 cfg
                         (a_shop "metadata" false no_filters) eq_refl))).
Defined.

(** X3.  [init] succeeds only with every credential that
    [requiredCredentials] declares, present and not empty; and the declared
    credential is the only one [init] reads. *)
Theorem init_requiredCredentials `{Host} (credentials : gmap string string)
    (cfg : Config.t) (this : Shop.t) :
  init credentials cfg = inr this ->
  (forall name, name ∈ dom requiredCredentials ->
                exists secret, credentials !! name = Some secret
                               /\ nonempty secret = true)
  /\ (forall others,
      others !! "youtube_api_key" = credentials !! "youtube_api_key" ->
      init others cfg = inr this).
Proof.
  intros Hinit. split.
  - intros name Hname. unfold requiredCredentials in Hname.
    rewrite dom_singleton_L in Hname. apply elem_of_singleton in Hname as ->.
    rewrite init_cases in Hinit.
    destruct (credentials !! "youtube_api_key") as [secret|]; [|done].
    exists secret. split; [done|]. by destruct secret.
  - intros others Hsame. rewrite init_cases in *. by rewrite Hsame.
Qed.

Lemma init_requiredCredentials_witness :
  let H := table_host (inr []) in
  exists secret, credentials1 !! "youtube_api_key" = Some secret
                 /\ nonempty secret = true.
Proof.
  intros H.
  apply (proj1 (@init_requiredCredentials H credentials1 config_5x
                  (a_shop "video" false
                     (Filters.Build_t None None None (Some "5x") None))
                  eq_refl)).
  apply elem_of_dom. eexists. reflexivity.
Defined.

(** X4.  A duration bound that is not a number counts as no bound: the
    verdict on every video with the bound at [NaN] is the verdict without
    the bound, and [init] turns a configured text that does not start with a
    number into such a bound. *)
Theorem nan_bound_is_no_bound `{Host} (this : Shop.t) :
  (forall video,
      keeps (with_filters (set_durationLessThan (Some NaN) (Shop.filters this)) this) video
      = keeps (with_filters (set_durationLessThan None (Shop.filters this)) this) video)
  /\ (forall video,
      keeps (with_filters (set_durationMoreThan (Some NaN) (Shop.filters this)) this) video
      = keeps (with_filters (set_durationMoreThan None (Shop.filters this)) this) video)
  /\ (forall credentials cfg shop text,
      init credentials cfg = inr shop ->
      nonempty text = true -> parseInt text = NaN ->
      (Config.durationLessThan cfg = Some (JStr text) ->
       Filters.durationLessThan (Shop.filters shop) = Some NaN)
      /\ (Config.durationMoreThan cfg = Some (JStr text) ->
          Filters.durationMoreThan (Shop.filters shop) = Some NaN)).
Proof.
  split; [done|]. split; [done|].
  intros credentials cfg shop text Hinit Hne Hnan.
  destruct (init_filters _ _ _ Hinit) as (Hmore & Hless & _).
  split; intros Hcfg.
  - by rewrite Hless, Hcfg, Hne, Hnan.
  - by rewrite Hmore, Hcfg, Hne, Hnan.
Qed.

Lemma nan_bound_is_no_bound_witness :
  let H := table_host (inr []) in
  let this := a_shop "video" false
                (Filters.Build_t None None (Some NaN) None None) in
  let cfg := Config.Build_t (Some "UC123") (Some "video") None None
               None (Some (JStr "ten minutes")) None None None in
  init credentials1 cfg = inr this
  /\ Filters.durationLessThan (Shop.filters this) = Some NaN.
Proof.
  intros H this cfg. split; [reflexivity|].
  apply (proj1 (proj2 (proj2 (@nan_bound_is_no_bound H this))
                  credentials1 cfg this "ten minutes" eq_refl eq_refl eq_refl)).
  reflexivity.
Defined.

(** ** The change set as a whole *)

Section ChangeSet.

Context `{Host}.
Variable this : Shop.t.

Lemma addAll_invalid (videos : list Video.t) (updates : gmap string Entry.t) :
  ~ valid_mode (Shop.mode this) -> videos <> [] ->
  addAll this videos updates = inl (Err ("Invalid mode: " +:+ Shop.mode this)).
Proof.
  intros Hmode Hne. destruct videos as [|video rest]; [done|].
  simpl. by rewrite (fetchContent_invalid this video Hmode).
Qed.

Lemma reconcile_error (videos : list Video.t) (existingFiles : gmap string Z)
    (e : Error) :
  reconcile this videos existingFiles = inl e <->
  e = Err ("Invalid mode: " +:+ Shop.mode this)
  /\ ~ valid_mode (Shop.mode this)
  /\ exists video, video ∈ videos /\ fileId this video ∉ dom existingFiles.
Proof.
  rewrite reconcile_unfold.
  destruct (filter (fun v => fileId this v ∉ dom existingFiles) videos)
    as [|video rest] eqn:Hnew.
  - split; [done|]. intros (_ & _ & video & Hin & Hout).
    assert (video ∈ filter (fun v => fileId this v ∉ dom existingFiles) videos)
      as Hv by by apply list_elem_of_filter.
    rewrite Hnew in Hv. by apply elem_of_nil in Hv.
  - assert (video ∈ filter (fun v => fileId this v ∉ dom existingFiles) videos)
      as Hv by (rewrite Hnew; by left).
    apply list_elem_of_filter in Hv as [Hout Hin].
    destruct (decide (valid_mode (Shop.mode this))) as [Hmode|Hmode].
    + destruct (addAll_valid this (video :: rest) ∅ Hmode) as [updates ->].
      split; [done|]. by intros (_ & ? & _).
    + rewrite addAll_invalid by done. simpl. split.
      * intros [= <-]. split; [done|]. split; [done|]. by exists video.
      * by intros (-> & _).
Qed.

Lemma reconcile_dom (videos : list Video.t) (existingFiles : gmap string Z)
    (changes : gmap string Entry.t) :
  reconcile this videos existingFiles = inr changes ->
  dom changes
  = (list_to_set (fileId this <$> videos) ∖ dom existingFiles)
      ∪ (if Shop.noDelete this then ∅
         else dom existingFiles ∖ list_to_set (fileId this <$> videos)).
Proof.
  intros Hrec. apply set_eq. intros k.
  rewrite elem_of_dom, elem_of_union, !elem_of_difference, elem_of_list_to_set.
  destruct (decide (k ∈ dom existingFiles)) as [Hin|Hout].
  - rewrite (reconcile_prior this _ _ _ k Hrec Hin).
    destruct (Shop.noDelete this).
    + split; [by intros [? ?] | intros [[_ ?] | ?%elem_of_empty]; done].
    + rewrite elem_of_difference, elem_of_list_to_set.
      destruct (decide (k ∈ (fileId this <$> videos))) as [Hcur|Hcur].
      * split; [by intros [? ?] | intros [[_ ?] | [_ ?]]; done].
      * split; [intros _; by right | by eexists].
  - destruct (reconcile_new this _ _ _ k Hrec Hout)
      as [[Hnot ->] | (v & c & Hv & <- & _ & ->)].
    + split; [by intros [? ?]|].
      intros [[? _] | Hstale]; [done|].
      destruct (Shop.noDelete this); [by apply elem_of_empty in Hstale|].
      by apply elem_of_difference in Hstale as [? _].
    + split; [|by eexists]. intros _. left. split; [|done].
      by apply list_elem_of_fmap_2.
Qed.

Lemma reconcile_nil (existingFiles : gmap string Z) :
  reconcile this [] existingFiles
  = inr (if Shop.noDelete this then ∅
         else (fun _ => delete_entry) <$> existingFiles).
Proof.
  rewrite reconcile_unfold. simpl. f_equal.
  destruct (Shop.noDelete this); [done|].
  apply map_eq. intros k. rewrite deleteAll_lookup, lookup_fmap, lookup_empty.
  destruct (decide (k ∈ (map_to_list existingFiles).*1)) as [Hk|Hk].
  - rewrite decide_False by apply not_elem_of_empty.
    apply elem_of_keys, elem_of_dom in Hk as [z ->]. done.
  - assert (existingFiles !! k = None) as ->; [|done].
    apply not_elem_of_dom. by rewrite <- elem_of_keys.
Qed.

Lemma addAll_with_noDelete (b : bool) (videos : list Video.t)
    (updates : gmap string Entry.t) :
  addAll (with_noDelete b this) videos updates = addAll this videos updates.
Proof.
  revert updates. induction videos as [|video rest IH]; intros updates; [done|].
  cbn [addAll].
  change (fetchContent (with_noDelete b this) video) with (fetchContent this video).
  destruct (fetchContent this video) as [e|content]; [done|]. simpl.
  change (fileId (with_noDelete b this) video) with (fileId this video).
  apply IH.
Qed.

Lemma addAll_only_adds (videos : list Video.t) (updates changes : gmap string Entry.t)
    (k : string) (entry : Entry.t) :
  addAll this videos updates = inr changes ->
  changes !! k = Some entry ->
  updates !! k = Some entry
  \/ Entry.action entry = Action.add /\ k ∈ (fileId this <$> videos).
Proof.
  intros Hadd Hk.
  destruct (addAll_lookup this _ _ _ k Hadd) as [[_ Hsame] | (v & c & Hv & <- & _ & Hlook)].
  - left. by rewrite <- Hsame.
  - right. rewrite Hlook in Hk. injection Hk as <-.
    split; [done|]. by apply list_elem_of_fmap_2.
Qed.

Lemma reconcile_pass_noDelete (videos : list Video.t) (existingFiles : gmap string Z) :
  reconcile_pass (with_noDelete true this) videos existingFiles
  = filter (fun kv => Entry.action kv.2 = Action.add)
      (reconcile_pass (with_noDelete false this) videos existingFiles).
Proof.
  unfold reconcile_pass. rewrite !reconcile_unfold, !addAll_with_noDelete.
  change (fileId (with_noDelete _ this)) with (fileId this).
  set (new := filter (fun v => fileId this v ∉ dom existingFiles) videos).
  destruct (addAll this new ∅) as [e|updates] eqn:Hadd; simpl.
  { by rewrite map_filter_empty. }
  apply map_eq. intros k. apply option_eq. intros entry.
  rewrite map_lookup_filter_Some, deleteAll_lookup. simpl.
  split.
  - intros Hk.
    destruct (addAll_only_adds _ _ _ k entry Hadd Hk) as [Hempty | [Hact Hin]];
      [by rewrite lookup_empty in Hempty|].
    split; [|done].
    destruct (decide (k ∈ (map_to_list existingFiles).*1)) as [Hkey|]; [|done].
    apply list_elem_of_fmap in Hin as (v & -> & Hv).
    apply list_elem_of_filter in Hv as [Hnew _].
    by apply elem_of_keys in Hkey.
  - intros [Hk Hact].
    destruct (decide (k ∈ (map_to_list existingFiles).*1)) as [Hkey|]; [|done].
    destruct (decide (k ∈ list_to_set (fileId this <$> videos))); [done|].
    by injection Hk as <-.
Qed.

End ChangeSet.

(** X18.  The reconciliation of the filtered videos throws exactly when the
    mode is none of the five and some filtered video is not in the prior
    state; the error names the mode.  So with an unknown mode and no new
    video the pass still succeeds, and its entries are the deletions. *)
Theorem reconcile_throws_iff `{Host} (this : Shop.t) (videos : list Video.t)
    (existingFiles : gmap string Z) :
  (forall e,
      reconcile this videos existingFiles = inl e <->
      e = Err ("Invalid mode: " +:+ Shop.mode this)
      /\ ~ valid_mode (Shop.mode this)
      /\ exists video, video ∈ videos /\ fileId this video ∉ dom existingFiles)
  /\ ((forall video, video ∈ videos -> fileId this video ∈ dom existingFiles) ->
      exists changes,
        reconcile this videos existingFiles = inr changes
        /\ dom changes
           = if Shop.noDelete this then ∅
             else dom existingFiles ∖ list_to_set (fileId this <$> videos)).
Proof.
  split; [intros e; apply reconcile_error|].
  intros Hold.
  destruct (reconcile this videos existingFiles) as [e|changes] eqn:Hrec.
  { apply reconcile_error in Hrec as (_ & _ & video & Hin & Hout).
    destruct Hout. by apply Hold. }
  exists changes. split; [done|].
  rewrite (reconcile_dom this _ _ _ Hrec).
  assert (list_to_set (fileId this <$> videos) ∖ dom existingFiles = (∅ : gset string))
    as ->.
  { apply set_eq. intros k. rewrite elem_of_difference, elem_of_list_to_set.
    split; [|by intros ?%elem_of_empty].
    intros [(v & -> & Hv)%list_elem_of_fmap Hout]. destruct Hout. by apply Hold. }
  by rewrite (left_id_L ∅ (∪)).
Qed.

Lemma reconcile_throws_iff_witness :
  let H := table_host (inr []) in
  let this := a_shop "podcast" false no_filters in
  let prior : gmap string Z :=
    {[ "youtube-channel-UC123-v1-podcast" := 5;
       "youtube-channel-UC123-v0-podcast" := 5 ]} in
  exists changes,
    reconcile this [a_video "v1" None None None] prior = inr changes
    /\ dom changes
       = dom prior ∖ list_to_set (fileId this <$> [a_video "v1" None None None]).
Proof.
  intros H this prior.
  apply (proj2 (@reconcile_throws_iff H this [a_video "v1" None None None] prior)).
  intros video Hin. apply list_elem_of_singleton in Hin. subst video.
  apply elem_of_dom. exists 5. reflexivity.
Defined.

(** X19.  With one of the five modes, the identifiers that get an entry are
    the current identifiers that are not in the prior state together with,
    when deletions are allowed, the identifiers of the prior state that are
    not current. *)
Theorem update_dom `{Host} (this : Shop.t) (lastUsed : Z)
    (existingFiles : gmap string Z) (videos filteredVideos : list Video.t) :
  valid_mode (Shop.mode this) ->
  getAllVideoDetails (Shop.channelId this) = inr videos ->
  applyFilters this videos = inr filteredVideos ->
  dom (update this lastUsed existingFiles)
  = (list_to_set (fileId this <$> filteredVideos) ∖ dom existingFiles)
      ∪ (if Shop.noDelete this then ∅
         else dom existingFiles ∖ list_to_set (fileId this <$> filteredVideos)).
Proof.
  intros Hmode Hlist Hfilter.
  rewrite (update_reconcile_pass this _ _ _ _ Hlist Hfilter). unfold reconcile_pass.
  destruct (reconcile_valid this filteredVideos existingFiles Hmode) as [changes Hrec].
  rewrite Hrec. simpl. by apply reconcile_dom.
Qed.

Lemma update_dom_witness :
  let H := table_host (inr [video2]) in
  let this := a_shop "video" false no_filters in
  dom (update this 0 prior1)
  = (list_to_set (fileId this <$> [video2]) ∖ dom prior1)
      ∪ (dom prior1 ∖ list_to_set (fileId this <$> [video2])).
Proof.
  intros H this.
  assert (valid_mode (Shop.mode this)) as Hmode by (do 4 constructor).
  apply (@update_dom H this 0 prior1 [video2] [video2] Hmode eq_refl eq_refl).
Defined.

(** X20.  When the listing answers and the filters keep no video, be it
    that the listing is empty, [update] deletes every identifier of the
    prior state, or answers with nothing when the no-delete flag is on;
    the mode plays no part. *)
Theorem update_nothing_kept `{Host} (this : Shop.t) (lastUsed : Z)
    (existingFiles : gmap string Z) (videos : list Video.t) :
  getAllVideoDetails (Shop.channelId this) = inr videos ->
  applyFilters this videos = inr [] ->
  update this lastUsed existingFiles
  = if Shop.noDelete this then ∅ else (fun _ => delete_entry) <$> existingFiles.
Proof.
  intros Hlist Hfilter.
  rewrite (update_reconcile_pass this _ _ _ _ Hlist Hfilter). unfold reconcile_pass.
  by rewrite reconcile_nil.
Qed.

Lemma update_nothing_kept_witness :
  let H := table_host (inr []) in
  let this := a_shop "video" false no_filters in
  update this 0 prior1 = (fun _ => delete_entry) <$> prior1.
Proof.
  intros H this.
  apply (@update_nothing_kept H this 0 prior1 [] eq_refl eq_refl).
Defined.

Lemma applyFilters_with_noDelete `{Host} (b : bool) (this : Shop.t)
    (videos : list Video.t) :
  applyFilters (with_noDelete b this) videos = applyFilters this videos.
Proof. by apply applyFilters_ext. Qed.

(** X21.  The no-delete flag only removes the deletions: the change set
    with the flag on is the change set with the flag off, without its delete
    entries. *)
Theorem update_noDelete_keeps_adds `{Host} (this : Shop.t) (lastUsed : Z)
    (existingFiles : gmap string Z) :
  update (with_noDelete true this) lastUsed existingFiles
  = filter (fun kv => Entry.action kv.2 = Action.add)
      (update (with_noDelete false this) lastUsed existingFiles).
Proof.
  unfold update, update_try.
  change (Shop.channelId (with_noDelete _ this)) with (Shop.channelId this).
  destruct (getAllVideoDetails (Shop.channelId this)) as [e|videos]; simpl.
  { by rewrite map_filter_empty. }
  rewrite !applyFilters_with_noDelete.
  destruct (applyFilters this videos) as [e|filteredVideos]; simpl.
  { by rewrite map_filter_empty. }
  apply reconcile_pass_noDelete.
Qed.

(** X22.  With one of the five modes and deletions allowed, the change set
    is empty exactly when the current identifiers are the identifiers of the
    prior state. *)
Theorem update_empty_iff `{Host} (this : Shop.t) (lastUsed : Z)
    (existingFiles : gmap string Z) (videos filteredVideos : list Video.t) :
  valid_mode (Shop.mode this) ->
  Shop.noDelete this = false ->
  getAllVideoDetails (Shop.channelId this) = inr videos ->
  applyFilters this videos = inr filteredVideos ->
  update this lastUsed existingFiles = ∅
  <-> list_to_set (fileId this <$> filteredVideos) = dom existingFiles.
Proof.
  intros Hmode Hdel Hlist Hfilter.
  rewrite <- dom_empty_iff_L.
  rewrite (update_dom this _ _ _ _ Hmode Hlist Hfilter), Hdel.
  generalize (list_to_set (fileId this <$> filteredVideos) : gset string) as C.
  generalize (dom existingFiles) as E. clear. intros E C.
  split.
  - intros Hempty. apply set_eq. intros k.
    assert (k ∉ (C ∖ E) ∪ (E ∖ C)) as Hk by (rewrite Hempty; apply not_elem_of_empty).
    rewrite elem_of_union, !elem_of_difference in Hk.
    destruct (decide (k ∈ C)), (decide (k ∈ E)); tauto.
  - intros ->. apply set_eq. intros k.
    rewrite elem_of_union, !elem_of_difference.
    split; [tauto | by intros ?%elem_of_empty].
Qed.

Lemma update_empty_iff_witness :
  let H := table_host (inr [video1]) in
  let this := a_shop "video" false no_filters in
  update this 0 prior1 = ∅.
Proof.
  intros H this.
  assert (valid_mode (Shop.mode this)) as Hmode by (do 4 constructor).
  apply (proj2 (@update_empty_iff H this 0 prior1 [video1] [video1]
                  Hmode eq_refl eq_refl eq_refl)).
  simpl. unfold prior1. rewrite dom_singleton_L.
  apply (right_id_L ∅ (∪)).
Defined.

(** X23.  When no two filtered videos share an identifier, the change set
    does not depend on the order of the videos. *)
Theorem reconcile_pass_permutation `{Host} (this : Shop.t)
    (videos videos' : list Video.t) (existingFiles : gmap string Z) :
  videos ≡ₚ videos' ->
  NoDup (fileId this <$> videos) ->
  reconcile_pass this videos existingFiles = reconcile_pass this videos' existingFiles.
Proof.
  intros Hperm Hnd.
  assert (forall v, v ∈ videos <-> v ∈ videos') as Hin by (intros v; by rewrite Hperm).
  assert (forall k, k ∈ (fileId this <$> videos) <-> k ∈ (fileId this <$> videos'))
    as Hids by (intros k; by rewrite Hperm).
  unfold reconcile_pass.
  destruct (reconcile this videos existingFiles) as [e|changes] eqn:Hrec;
    destruct (reconcile this videos' existingFiles) as [e'|changes'] eqn:Hrec'; simpl.
  - done.
  - apply reconcile_error in Hrec as (_ & Hmode & v & Hv & Hout).
    assert (reconcile this videos' existingFiles
            = inl (Err ("Invalid mode: " +:+ Shop.mode this))) as Herr.
    { apply reconcile_error. split; [done|]. split; [done|].
      exists v. split; [by apply Hin | done]. }
    congruence.
  - apply reconcile_error in Hrec' as (_ & Hmode & v & Hv & Hout).
    assert (reconcile this videos existingFiles
            = inl (Err ("Invalid mode: " +:+ Shop.mode this))) as Herr.
    { apply reconcile_error. split; [done|]. split; [done|].
      exists v. split; [by apply Hin | done]. }
    congruence.
  - apply map_eq. intros k.
    destruct (decide (k ∈ dom existingFiles)) as [Hprior|Hnew].
    + rewrite (reconcile_prior this _ _ _ k Hrec Hprior).
      rewrite (reconcile_prior this _ _ _ k Hrec' Hprior).
      destruct (Shop.noDelete this); [done|].
      destruct (decide (k ∈ (fileId this <$> videos))) as [Hk|Hk];
        destruct (decide (k ∈ (fileId this <$> videos'))) as [Hk'|Hk']; try done.
      * destruct Hk'. by apply Hids.
      * destruct Hk. by apply Hids.
    + destruct (reconcile_new this _ _ _ k Hrec Hnew)
        as [[Hnot ->] | (v & c & Hv & Hk & Hc & ->)];
        destruct (reconcile_new this _ _ _ k Hrec' Hnew)
        as [[Hnot' ->] | (v' & c' & Hv' & Hk' & Hc' & ->)]; try done.
      * destruct Hnot. apply Hids. rewrite <- Hk'. by apply list_elem_of_fmap_2.
      * destruct Hnot'. apply Hids. rewrite <- Hk. by apply list_elem_of_fmap_2.
      * assert (v = v') as <-.
        { apply (fmap_NoDup_inj this videos); [done | done | by apply Hin | congruence]. }
        congruence.
Qed.

Lemma reconcile_pass_permutation_witness :
  let H := table_host (inr []) in
  let this := a_shop "video" false no_filters in
  reconcile_pass this [video1; video2] ∅ = reconcile_pass this [video2; video1] ∅.
Proof.
  intros H this.
  apply (@reconcile_pass_permutation H this [video1; video2] [video2; video1] ∅).
  - apply perm_swap.
  - apply NoDup_cons. split.
    + intros Hin. apply list_elem_of_singleton in Hin. discriminate Hin.
    + apply NoDup_singleton.
Defined.

(** ** The content of a transcript *)

(** X24.  In transcript mode with the header on, a video whose publish
    date cannot be parsed gets the fallback text although its transcript
    was fetched; with the header off, or with a missing date, the fetched
    texts are in the content, joined by single spaces. *)
Theorem getTranscriptContent_dates `{Host} (this : Shop.t) (video : Video.t)
    (transcript : list string) :
  fetchTranscript (Video.id video) = Some transcript ->
  (Shop.includeHeader this = false ->
   getTranscriptContent this video = join " " transcript)
  /\ (forall publishedAt,
      Shop.includeHeader this = true ->
      publishedAt_of video = Some publishedAt ->
      Date_parse publishedAt = NaN ->
      getTranscriptContent this video = "Transcript not available")
  /\ (Shop.includeHeader this = true ->
      publishedAt_of video = None ->
      exists header,
        getTranscriptContent this video
        = header +:+ "Date: Unknown Date
Video transcript follows:
" +:+ join " " transcript +:+ "
[end of video]").
Proof.
  intros Hfetch. unfold getTranscriptContent, publishedAt_of. rewrite Hfetch.
  split; [by intros ->|]. split.
  - intros publishedAt -> -> ->. done.
  - intros -> ->. simpl.
    exists ("YouTube video: "
              +:+ default "Unknown Title"
                    (truthy_str (to_option (Video.snippet video) ?. Snippet.title))
              +:+ "
Video URL: " +:+ ("https://www.youtube.com/watch?v=" +:+ template (Video.id video))
              +:+ "
Uploaded by: "
              +:+ default "Unknown Channel"
                    (truthy_str (to_option (Video.snippet video) ?. Snippet.channelTitle))
              +:+ "
").
    rewrite !append_assoc. reflexivity.
Qed.

Lemma getTranscriptContent_dates_witness :
  let H := transcript_host in
  let this := a_shop "transcript" false no_filters in
  getTranscriptContent this video3 = "Transcript not available".
Proof.
  intros H this.
  apply (proj1 (proj2 (@getTranscriptContent_dates H this video3 ["never"; "gonna"]
                         eq_refl)) "last Tuesday"); reflexivity.
Defined.

(** ** The listing of a channel *)

Section Pages.

Context `{Youtube}.
Variable this : Shop.t.

Lemma getChannelVideoIds_loop_paged (pages : list (list SearchResult.t)) :
  forall (token : option string) (fuel : nat) (videoIds : list (nullable string)),
    Client.paged this token pages ->
    Client.getChannelVideoIds_loop this fuel videoIds token
    = if decide (length pages <= fuel)%nat
      then Some (inr (videoIds ++ concat (ids_of <$> pages)))
      else None.
Proof.
  induction pages as [|items rest IH]; intros token fuel videoIds; [done|].
  intros (next & Hcall & Hrest).
  destruct fuel as [|fuel].
  { rewrite decide_False; [done|]. simpl. lia. }
  cbn [Client.getChannelVideoIds_loop]. rewrite Hcall. simpl.
  destruct rest as [|items' rest].
  - rewrite Hrest. rewrite decide_True by (simpl; lia).
    by rewrite app_nil_r.
  - destruct Hrest as (token' & -> & Hpaged).
    rewrite (IH (Some token') fuel _ Hpaged).
    destruct (decide (length (items' :: rest) <= fuel)%nat) as [Hle|Hgt].
    + rewrite decide_True by (simpl in *; lia).
      by rewrite <- app_assoc.
    + rewrite decide_False; [done|]. simpl in *. lia.
Qed.

Lemma getChannelVideoIds_loop_stable (fuel : nat) :
  forall (videoIds : list (nullable string)) (token : option string)
         (answer : result (list (nullable string))),
    Client.getChannelVideoIds_loop this fuel videoIds token = Some answer ->
    Client.getChannelVideoIds_loop this (S fuel) videoIds token = Some answer.
Proof.
  induction fuel as [|fuel IH]; intros videoIds token answer; [done|].
  intros Hloop. cbn [Client.getChannelVideoIds_loop] in *.
  destruct (search_list (Shop.channelId this) token) as [e|response]; [done|].
  destruct (SearchListResponse.items response) as [items|]; [|done].
  destruct (truthy_str (SearchListResponse.nextPageToken response)) as [next|];
    [|done].
  by apply IH.
Qed.

Lemma ids_of_defined (items : list SearchResult.t) :
  Forall (fun id => id <> Undefined) (ids_of items).
Proof.
  unfold ids_of. apply Forall_forall. intros id Hin.
  by apply list_elem_of_filter in Hin as [? _].
Qed.

Lemma getChannelVideoIds_loop_defined (fuel : nat) :
  forall (videoIds : list (nullable string)) (token : option string)
         (ids : list (nullable string)),
    Forall (fun id => id <> Undefined) videoIds ->
    Client.getChannelVideoIds_loop this fuel videoIds token = Some (inr ids) ->
    Forall (fun id => id <> Undefined) ids.
Proof.
  induction fuel as [|fuel IH]; intros videoIds token ids Hdef; [done|].
  cbn [Client.getChannelVideoIds_loop].
  destruct (search_list (Shop.channelId this) token) as [e|response]; [done|].
  destruct (SearchListResponse.items response) as [items|]; [|done].
  assert (Forall (fun id => id <> Undefined) (videoIds ++ ids_of items)) as Hdef'.
  { apply Forall_app. split; [done | apply ids_of_defined]. }
  destruct (truthy_str (SearchListResponse.nextPageToken response)) as [next|].
  - by apply IH.
  - by intros [= <-].
Qed.

Lemma getChannelVideoIds_loop_endless (fuel : nat) :
  (forall token, exists items next token',
      search_list (Shop.channelId this) token
      = inr {| SearchListResponse.items := Some items;
               SearchListResponse.nextPageToken := next |}
      /\ truthy_str next = Some token') ->
  forall videoIds token,
    Client.getChannelVideoIds_loop this fuel videoIds token = None.
Proof.
  intros Hmore. induction fuel as [|fuel IH]; intros videoIds token; [done|].
  cbn [Client.getChannelVideoIds_loop].
  destruct (Hmore token) as (items & next & token' & -> & Hnext). simpl.
  rewrite Hnext. apply IH.
Qed.

(** The for loop from a multiple of 50 on, when every batch is answered
    with the details of its ids. *)
Lemma getAllVideoDetails_loop_batches (detail : nullable string -> list Video.t)
    (videoIds : list (nullable string)) :
  (forall n, (50 * n < length videoIds)%nat ->
             videos_list (join_ids (take 50 (drop (50 * n) videoIds)))
             = inr {| VideoListResponse.items :=
                        Some (concat (detail <$> take 50 (drop (50 * n) videoIds))) |}) ->
  forall (fuel n : nat) (details : list Video.t),
    (length videoIds <= 50 * n + fuel)%nat ->
    Client.getAllVideoDetails_loop fuel (50 * n) videoIds details
    = inr (details ++ concat (detail <$> drop (50 * n) videoIds)).
Proof.
  intros Hbatch fuel. induction fuel as [|fuel IH]; intros n details Hfuel.
  - cbn [Client.getAllVideoDetails_loop]. rewrite drop_ge by lia.
    by rewrite app_nil_r.
  - cbn [Client.getAllVideoDetails_loop].
    destruct (50 * n <? length videoIds)%nat eqn:Hlt.
    + apply Nat.ltb_lt in Hlt. rewrite (Hbatch n Hlt).
      cbn -[Nat.mul Nat.add take drop Client.getAllVideoDetails_loop].
      replace (50 * n + 50)%nat with (50 * S n)%nat by lia.
      rewrite IH by lia. f_equal. rewrite <- app_assoc. f_equal.
      rewrite <- concat_app, <- fmap_app. do 2 f_equal.
      replace (50 * S n)%nat with (50 * n + 50)%nat by lia.
      rewrite <- drop_drop. apply take_drop.
    + apply Nat.ltb_ge in Hlt. rewrite drop_ge by lia. by rewrite app_nil_r.
Qed.

End Pages.

(** X25.  When the pages of a channel form a chain in which every page but
    the last names the next, [getChannelVideoIds] makes one call per page
    and returns the ids of all pages in order, without the ids that are
    undefined; with fewer rounds than pages it has not ended. *)
Theorem getChannelVideoIds_pages `{Youtube} (this : Shop.t)
    (pages : list (list SearchResult.t)) :
  Client.paged this None pages ->
  (forall fuel, (length pages <= fuel)%nat ->
                Client.getChannelVideoIds this fuel
                = Some (inr (concat (ids_of <$> pages))))
  /\ (forall fuel, (fuel < length pages)%nat ->
                   Client.getChannelVideoIds this fuel = None).
Proof.
  intros Hpaged. unfold Client.getChannelVideoIds.
  split; intros fuel Hfuel; rewrite (getChannelVideoIds_loop_paged this pages _ _ _ Hpaged).
  - by rewrite decide_True.
  - rewrite decide_False; [done | lia].
Qed.

Lemma getChannelVideoIds_pages_witness :
  let C := two_pages in
  let this := a_shop "video" false no_filters in
  Client.getChannelVideoIds this 2 = Some (inr [Val "v1"; Val "v2"; Null]).
Proof.
  intros C this.
  apply (proj1 (@getChannelVideoIds_pages C this
                  [[item (Val "v1"); item Undefined]; [item (Val "v2"); item Null]]
                  ltac:(simpl; eexists; split;
                        [reflexivity
                        | eexists; split;
                          [reflexivity | eexists; split; reflexivity]]))).
  simpl. lia.
Defined.

(** X26.  When every page names a next page, [getChannelVideoIds] does not
    end however many rounds it is given, and neither does
    [getAllVideoDetails]. *)
Theorem getChannelVideoIds_endless `{Youtube} (this : Shop.t) :
  (forall token, exists items next token',
      search_list (Shop.channelId this) token
      = inr {| SearchListResponse.items := Some items;
               SearchListResponse.nextPageToken := next |}
      /\ truthy_str next = Some token') ->
  forall fuel,
    Client.getChannelVideoIds this fuel = None
    /\ Client.getAllVideoDetails this fuel = None.
Proof.
  intros Hmore fuel.
  assert (Client.getChannelVideoIds this fuel = None) as Hnone
    by by apply getChannelVideoIds_loop_endless.
  split; [done|]. unfold Client.getAllVideoDetails. by rewrite Hnone.
Qed.

Lemma getChannelVideoIds_endless_witness :
  let C := endless in
  let this := a_shop "video" false no_filters in
  Client.getAllVideoDetails this 1000 = None.
Proof.
  intros C this.
  apply (proj2 (@getChannelVideoIds_endless C this
                  (fun _ => ex_intro _ [item (Val "v1")]
                     (ex_intro _ (Some "again")
                        (ex_intro _ "again" (conj eq_refl eq_refl))))
                  1000%nat)).
Defined.

(** X27.  What [getChannelVideoIds] returns does not depend on the rounds
    it is given beyond those it needs, and the ids it returns are never
    undefined. *)
Theorem getChannelVideoIds_answer `{Youtube} (this : Shop.t) (fuel : nat)
    (answer : result (list (nullable string))) :
  Client.getChannelVideoIds this fuel = Some answer ->
  (forall more, Client.getChannelVideoIds this (fuel + more) = Some answer)
  /\ (forall ids, answer = inr ids -> Forall (fun id => id <> Undefined) ids).
Proof.
  unfold Client.getChannelVideoIds. intros Hanswer. split.
  - intros more. induction more as [|more IH].
    + by rewrite Nat.add_0_r.
    + rewrite Nat.add_succ_r. by apply getChannelVideoIds_loop_stable.
  - intros ids ->.
    by apply (getChannelVideoIds_loop_defined this fuel [] None).
Qed.

Lemma getChannelVideoIds_answer_witness :
  let C := two_pages in
  let this := a_shop "video" false no_filters in
  Client.getChannelVideoIds this (2 + 5) = Some (inr [Val "v1"; Val "v2"; Null]).
Proof.
  intros C this.
  apply (proj1 (@getChannelVideoIds_answer C this 2
                  (inr [Val "v1"; Val "v2"; Null]) eq_refl) 5%nat).
Defined.

(** X28.  [getAllVideoDetails] asks for the details in batches of at most
    50 ids, in the order of the ids, and loses and repeats none: when every
    batch is answered with the details of its ids, the result is the
    details of all ids in order. *)
Theorem getAllVideoDetails_batches `{Youtube} (this : Shop.t) (fuel : nat)
    (videoIds : list (nullable string)) (detail : nullable string -> list Video.t) :
  Client.getChannelVideoIds this fuel = Some (inr videoIds) ->
  (forall n, (50 * n < length videoIds)%nat ->
             videos_list (join_ids (take 50 (drop (50 * n) videoIds)))
             = inr {| VideoListResponse.items :=
                        Some (concat (detail <$> take 50 (drop (50 * n) videoIds))) |}) ->
  Client.getAllVideoDetails this fuel = Some (inr (concat (detail <$> videoIds))).
Proof.
  intros Hids Hbatch. unfold Client.getAllVideoDetails. rewrite Hids.
  pose proof (getAllVideoDetails_loop_batches detail videoIds Hbatch
                (length videoIds) 0 [] ltac:(lia)) as Hloop.
  rewrite Nat.mul_0_r in Hloop. by rewrite Hloop.
Qed.

Lemma getAllVideoDetails_batches_witness :
  let C := two_pages in
  let this := a_shop "video" false no_filters in
  Client.getAllVideoDetails this 2 = Some (inr [video1; video2]).
Proof.
  intros C this.
  apply (@getAllVideoDetails_batches C this 2 [Val "v1"; Val "v2"; Null]
           (fun id => match id with
                      | Val "v1" => [video1]
                      | Val "v2" => [video2]
                      | _ => []
                      end) eq_refl).
  intros [|n] Hn; [reflexivity|]. simpl in Hn. lia.
Defined.

(** X29.  An error of a later page discards the ids of the pages before:
    when the first page names a second one and the call for the second
    fails, the listing ends in that error; and a page without items ends it
    in a type error. *)
Theorem getAllVideoDetails_page_error `{Youtube} (this : Shop.t)
    (items : list SearchResult.t) (next token : string) (fuel : nat) :
  search_list (Shop.channelId this) None
  = inr {| SearchListResponse.items := Some items;
           SearchListResponse.nextPageToken := Some next |} ->
  truthy_str (Some next) = Some token ->
  (forall e, search_list (Shop.channelId this) (Some token) = inl e ->
             Client.getAllVideoDetails this (S (S fuel)) = Some (inl e))
  /\ (forall after,
      search_list (Shop.channelId this) (Some token)
      = inr {| SearchListResponse.items := None;
               SearchListResponse.nextPageToken := after |} ->
      Client.getAllVideoDetails this (S (S fuel)) = Some (inl (Err "TypeError"))).
Proof.
  intros Hfirst Htoken.
  unfold Client.getAllVideoDetails, Client.getChannelVideoIds.
  cbn [Client.getChannelVideoIds_loop]. rewrite Hfirst.
  cbn [SearchListResponse.items SearchListResponse.nextPageToken]. rewrite Htoken.
  split.
  - by intros e ->.
  - by intros after ->.
Qed.

Lemma getAllVideoDetails_page_error_witness :
  let C := second_page_fails in
  let this := a_shop "video" false no_filters in
  Client.getAllVideoDetails this 2 = Some (inl (Err "quotaExceeded")).
Proof.
  intros C this.
  apply (proj1 (@getAllVideoDetails_page_error C this [item (Val "v1")]
                  "page2" "page2" 0 eq_refl eq_refl) (Err "quotaExceeded")).
  reflexivity.
Defined.

(** X14.  [init] reads a duration bound written as text by its leading
    decimal number, when that is below 2^53, and ignores what follows the
    digits; and it takes a bound written as an integer number other than 0
    and below 2^53 in magnitude as it is. *)
Theorem init_duration_bound `{Host} (credentials : gmap string string)
    (cfg : Config.t) (this : Shop.t) (ds : list Z) (rest : string) :
  init credentials cfg = inr this ->
  decimal ds ->
  value ds < 2 ^ 53 ->
  starts_with_digit rest = false ->
  (Config.durationMoreThan cfg = Some (JStr (digit_string ds +:+ rest)) ->
   Filters.durationMoreThan (Shop.filters this) = Some (Num (value ds)))
  /\ (Config.durationLessThan cfg = Some (JStr (digit_string ds +:+ rest)) ->
      Filters.durationLessThan (Shop.filters this) = Some (Num (value ds)))
  /\ (forall n, n <> 0 -> - 2 ^ 53 < n < 2 ^ 53 ->
                Config.durationMoreThan cfg = Some (JNum n) ->
                Filters.durationMoreThan (Shop.filters this) = Some (Num n))
  /\ (forall n, n <> 0 -> - 2 ^ 53 < n < 2 ^ 53 ->
                Config.durationLessThan cfg = Some (JNum n) ->
                Filters.durationLessThan (Shop.filters this) = Some (Num n)).
Proof.
  intros Hinit Hds _ Hrest.
  destruct (init_filters _ _ _ Hinit) as (Hmore & Hless & _).
  assert (nonempty (digit_string ds +:+ rest) = true) as Hne.
  { destruct Hds as [Hnil _]. by destruct ds. }
  pose proof (proj1 (parseInt_digit_string ds rest Hds Hrest)) as Hparse.
  split; [|split; [|split]].
  - intros Hcfg. by rewrite Hmore, Hcfg, Hne, Hparse.
  - intros Hcfg. by rewrite Hless, Hcfg, Hne, Hparse.
  - intros n Hn _ Hcfg. rewrite Hmore, Hcfg.
    by rewrite (proj2 (Z.eqb_neq n 0) Hn).
  - intros n Hn _ Hcfg. rewrite Hless, Hcfg.
    by rewrite (proj2 (Z.eqb_neq n 0) Hn).
Qed.

Lemma init_duration_bound_witness :
  let H := table_host (inr []) in
  let this := a_shop "video" false
                (Filters.Build_t None (Some (Num 5)) None None None) in
  let cfg := Config.Build_t (Some "UC123") (Some "video") None None
               (Some (JStr "5 minutes")) None None None None in
  init credentials1 cfg = inr this
  /\ Filters.durationMoreThan (Shop.filters this) = Some (Num (value [5])).
Proof.
  intros H this cfg. split; [reflexivity|].
  assert (decimal [5]) as Hdec.
  { split; [discriminate|]. repeat constructor; lia. }
  apply (proj1 (@init_duration_bound H credentials1 cfg this [5] " minutes"
                  eq_refl Hdec eq_refl eq_refl)).
  reflexivity.
Defined.
